(** * modelurl.utils: replacing urls with macros

    A shallow embedding of [src/modelurl/utils.py] (Python 2) and the
    properties of its two replacers, [ReplaceByDict] and [ReplaceByView].

    Conventions of the embedding:
    - a Python [str] is a [string] (a sequence of bytes); [str.lower] and
      [re.IGNORECASE] fold the ASCII letters only;
    - a method is a computation in the state-and-exception monad [M]:
      the state is the object the method mutates ([self] for
      [ReplaceByDict], the thread's world for [ReplaceByView]);
    - what the module imports from other packages ([urlsplit], [urljoin],
      [local_response], the url resolver, [MACRO_RE]) is a parameter. *)

From Stdlib Require Import Ascii String ZArith Lia.
From stdpp Require Import gmap strings list fin_maps sorting pretty.

Open Scope string_scope.

(** ** Python values and exceptions *)

(** The exception classes of the module, and the built-in or foreign ones
    that the modelled code can meet. *)
Inductive exception : Type :=
  | ReplaceException
  | DoesNotFoundException
  | AlreadyMacroException
  | NoPathException
  | ForeignException
  | KeyError
  | AttributeError
  | IndexError
  | AssertionError
  | NameError (name : string)
  | Resolver404
  | OtherException (what : string).

(** [isinstance(e, ReplaceException)]: the base class and its four
    subclasses. *)
Definition is_ReplaceException (e : exception) : bool :=
  match e with
  | ReplaceException | DoesNotFoundException | AlreadyMacroException
  | NoPathException | ForeignException => true
  | _ => false
  end.

Inductive result (A : Type) : Type :=
  | Return (a : A)
  | Raise (e : exception).
Arguments Return {A} a.
Arguments Raise {A} e.

(** ** The state-and-exception monad *)

Definition M (St A : Type) : Type := St → St * result A.

Definition ret {St A} (a : A) : M St A := λ st, (st, Return a).

Definition raise {St A} (e : exception) : M St A := λ st, (st, Raise e).

Definition bind {St A B} (m : M St A) (k : A → M St B) : M St B :=
  λ st, match m st with
        | (st', Return a) => k a st'
        | (st', Raise e) => (st', Raise e)
        end.

(** [try: m  except Exception, e: handler(e)]; the state reached when the
    exception was raised is kept. *)
Definition try_except {St A} (m : M St A) (handler : exception → M St A)
  : M St A :=
  λ st, match m st with
        | (st', Return a) => (st', Return a)
        | (st', Raise e) => handler e st'
        end.

Definition get {St} : M St St := λ st, (st, Return st).
Definition put {St} (st : St) : M St unit := λ _, (st, Return tt).

Declare Scope py_scope.
Delimit Scope py_scope with py.
Notation "x <- m ;; k" := (bind m (λ x, k))
  (at level 100, m at next level, right associativity) : py_scope.
Notation "m ;;; k" := (bind m (λ _, k))
  (at level 100, right associativity) : py_scope.
Open Scope py_scope.

(** ** Strings *)

(** [str.lower] on one byte: [A-Z] to [a-z]. *)
Definition ascii_lower (c : ascii) : ascii :=
  let n := N_of_ascii c in
  if ((65 <=? n) && (n <=? 90))%N then ascii_of_N (n + 32) else c.

Fixpoint lower (s : string) : string :=
  match s with
  | EmptyString => EmptyString
  | String c s' => String (ascii_lower c) (lower s')
  end.

(** Python's truth value of a string that may be [None]. *)
Definition truthy (o : option string) : bool :=
  match o with
  | Some s => negb (String.eqb s "")
  | None => false
  end.

(** Comparison of [(key, value)] tuples: by the first component, then by
    the second; on [str] it is the byte-wise lexicographic order. *)
Definition tuple_compare (a b : string * string) : comparison :=
  match String.compare a.1 b.1 with
  | Eq => String.compare a.2 b.2
  | c => c
  end.

(** [a] may stand before [b] in a list sorted with [reverse=True]. *)
Definition tuple_ge (a b : string * string) : Prop := tuple_compare a b ≠ Lt.

Global Instance tuple_ge_dec a b : Decision (tuple_ge a b).
Proof. unfold tuple_ge. apply _. Defined.

(** [list.sort(reverse=True)] *)
Definition sort_reverse (l : list (string * string)) : list (string * string) :=
  merge_sort tuple_ge l.

(** ** The regular expressions the module compiles *)

(** The pattern ['|'.join(['(%s)' % re.escape(key) ...])] compiled with
    [flags]: an ordered alternation of capture groups, group [i] matching
    the text of the [i]-th key literally ([re.escape] quotes whatever is
    special in it).  With no key the pattern is [''] and has no group. *)
Record SRE_Pattern : Type := {
  literals : list string;
  IGNORECASE : bool
}.

(** [re.compile] on such a pattern.  Python 2's [sre_compile.compile]
    refuses a pattern with 100 or more capture groups: it raises
    [AssertionError] when [pattern.groups], which counts the whole match
    as well, exceeds 100. *)
Definition re_compile {St} (keys : list string) (ignorecase : bool)
  : M St SRE_Pattern :=
  if bool_decide (100 < S (length keys))%nat
  then raise AssertionError
  else ret {| literals := keys; IGNORECASE := ignorecase |}.

(** A match object: the matched text and [match.groups()]. *)
Record SRE_Match : Type := {
  group0 : string;
  groups : list (option string)
}.

Definition char_eq (ignorecase : bool) (a b : ascii) : bool :=
  if ignorecase then Ascii.eqb (ascii_lower a) (ascii_lower b)
  else Ascii.eqb a b.

(** The literal [key] matched at the start of [s]: the text it covers. *)
Fixpoint literal_match (ignorecase : bool) (key s : string) : option string :=
  match key with
  | EmptyString => Some EmptyString
  | String k key' =>
      match s with
      | EmptyString => None
      | String c s' =>
          if char_eq ignorecase k c
          then String c <$> literal_match ignorecase key' s'
          else None
      end
  end.

(** The alternatives are tried in order; the first that matches is the
    match (nothing follows the alternation, so there is no backtracking
    into a later one).  Only the group of that alternative is set. *)
Fixpoint alternation (ignorecase : bool) (keys : list string) (s : string)
  : option SRE_Match :=
  match keys with
  | [] => None
  | key :: keys' =>
      match literal_match ignorecase key s with
      | Some text =>
          Some {| group0 := text;
                  groups := Some text :: ((λ _, None) <$> keys') |}
      | None =>
          (λ m, {| group0 := group0 m; groups := None :: groups m |})
            <$> alternation ignorecase keys' s
      end
  end.

(** A match of the pattern anchored at the start of [s]. *)
Definition sre_match_here (p : SRE_Pattern) (s : string) : option SRE_Match :=
  match literals p with
  | [] => Some {| group0 := EmptyString; groups := [] |}
  | keys => alternation (IGNORECASE p) keys s
  end.

(** [pattern.sub(repl, string)] with a callable [repl] (Python 2): the
    string is scanned from the left for non-overlapping matches; each
    match is replaced by what [repl] returns for it, and an empty match is
    replaced only when it is not adjacent to the previous match.
    [skip] counts the characters of the current match still to pass;
    [adjacent] says that the previous match ended at this position. *)
Fixpoint subx {St} (p : SRE_Pattern) (repl : SRE_Match → M St string)
    (skip : nat) (adjacent : bool) (s : string) : M St string :=
  match skip with
  | S skip' =>
      match s with
      | EmptyString => ret EmptyString
      | String _ s' => subx p repl skip' true s'
      end
  | O =>
      match sre_match_here p s with
      | None =>
          match s with
          | EmptyString => ret EmptyString
          | String c s' =>
              out <- subx p repl 0 false s' ;; ret (String c out)
          end
      | Some m =>
          match String.length (group0 m) with
          | O =>
              if adjacent then
                match s with
                | EmptyString => ret EmptyString
                | String c s' =>
                    out <- subx p repl 0 false s' ;; ret (String c out)
                end
              else
                item <- repl m ;;
                match s with
                | EmptyString => ret item
                | String c s' =>
                    out <- subx p repl 0 false s' ;;
                    ret (item +:+ String c out)
                end
          | S len =>
              item <- repl m ;;
              match s with
              | EmptyString => ret item
              | String _ s' =>
                  out <- subx p repl len true s' ;; ret (item +:+ out)
              end
          end
      end
  end.

Definition sub {St} (p : SRE_Pattern) (repl : SRE_Match → M St string)
    (s : string) : M St string :=
  subx p repl 0 false s.

(** ** silentmethod *)

(** The decorator [silentmethod]: [self_silent] reads [self.silent]. *)
Definition silentmethod {St} (self_silent : St → bool)
    (func : string → M St string) : string → M St string :=
  λ value,
    try_except (func value)
      (λ exception,
         if is_ReplaceException exception then
           s <- get ;;
           if self_silent s then ret value else raise exception
         else raise exception).

(** ** ReplaceByDict *)

Module ReplaceByDict.

(** The attributes of an instance.  [dict], [list_] (the attribute
    [list]) and [regexp] are the lazily built caches, [None] until their
    first use.  [source] is the dictionary given to the constructor, as
    the sequence of items [iteritems] yields. *)
Record t : Type := {
  silent : bool;
  source : list (string * string);
  dict : option (gmap string string);
  list_ : option (list (string * string));
  regexp : option SRE_Pattern
}.

Definition __init__ (dict : list (string * string)) (silent : bool) : t :=
  {| silent := silent; source := dict;
     dict := None; list_ := None; regexp := None |}.

Definition set_dict (d : gmap string string) : M t unit :=
  λ self, ({| silent := silent self; source := source self;
              dict := Some d; list_ := list_ self;
              regexp := regexp self |}, Return tt).

Definition set_list (l : list (string * string)) : M t unit :=
  λ self, ({| silent := silent self; source := source self;
              dict := dict self; list_ := Some l;
              regexp := regexp self |}, Return tt).

Definition set_regexp (r : SRE_Pattern) : M t unit :=
  λ self, ({| silent := silent self; source := source self;
              dict := dict self; list_ := list_ self;
              regexp := Some r |}, Return tt).

(** The loop of [get_dict]: [self.dict[key.lower()] = value] for each
    item of the source, in iteration order. *)
Definition lowered (src : list (string * string)) : gmap string string :=
  foldl (λ d item, <[lower item.1 := item.2]> d) ∅ src.

Definition get_dict : M t (gmap string string) :=
  self <- get ;;
  match dict self with
  | None => set_dict (lowered (source self)) ;;; ret (lowered (source self))
  | Some d => ret d
  end.

Definition get_list : M t (list (string * string)) :=
  self <- get ;;
  l <- match list_ self with
       | None => d <- get_dict ;; ret (map_to_list d)
       | Some l => ret l
       end ;;
  set_list (sort_reverse l) ;;;
  ret (sort_reverse l).

Definition get_regexp : M t SRE_Pattern :=
  self <- get ;;
  match regexp self with
  | None =>
      l <- get_list ;;
      r <- re_compile (fst <$> l) true ;;
      set_regexp r ;;; ret r
  | Some r => ret r
  end.

(** The body of [url], before decoration. *)
Definition url_func (value : string) : M t string :=
  try_except
    (d <- get_dict ;;
     match d !! lower value with
     | Some macro => ret macro
     | None => raise KeyError
     end)
    (λ e, match e with
          | KeyError => raise DoesNotFoundException
          | _ => raise e
          end).

Definition url : string → M t string := silentmethod silent url_func.

(** The inner function [replace] of [text]. *)
Fixpoint replace_from (index : nat) (values : list (option string))
  : M t string :=
  match values with
  | [] => ret EmptyString
  | Some _ :: _ =>
      l <- get_list ;;
      match l !! index with
      | Some item => ret item.2
      | None => raise IndexError
      end
  | None :: values' => replace_from (S index) values'
  end.

Definition replace (match_ : SRE_Match) : M t string :=
  replace_from 0 (groups match_).

Definition text (value : string) : M t string :=
  r <- get_regexp ;; sub r replace value.

End ReplaceByDict.

(** ** The render hook and object_from_view *)

Record PyClass : Type := { __module__ : string; __name__ : string }.

(** An object a view can put in a template context. *)
Record PyObject : Type := { __class__ : PyClass; pk : Z; id : Z }.

Definition macro (obj : PyObject) : string :=
  "{@ " +:+ __module__ (__class__ obj) +:+ "." +:+ __name__ (__class__ obj)
        +:+ " " +:+ pretty (pk obj) +:+ " @}".

(** A template context: [context[name]] raises [KeyError] for a name it
    does not hold. *)
Abbreviation Context_ := (gmap string PyObject).

(** The attributes of the thread-local [local]; [None] is an attribute
    that is not set. *)
Record Local : Type := {
  modelurl_object_name : option string;
  modelurl_object : option PyObject
}.

(** What a thread sees: its [local], and two records kept for the
    statements only: for every call of the wrapped [Template.render] its
    context and whether the wrapper returned [''] without calling the
    original render, and the arguments of every call of
    [local_response]. *)
Record World : Type := {
  local : Local;
  rendered : list (Context_ * bool);
  requested : list (option string * option string)
}.

Definition set_modelurl_object_name (name : string) : M World unit :=
  λ w, ({| local := {| modelurl_object_name := Some name;
                       modelurl_object := modelurl_object (local w) |};
           rendered := rendered w; requested := requested w |}, Return tt).

Definition set_modelurl_object (obj : PyObject) : M World unit :=
  λ w, ({| local := {| modelurl_object_name := modelurl_object_name (local w);
                       modelurl_object := Some obj |};
           rendered := rendered w; requested := requested w |}, Return tt).

Definition note_render (context : Context_) (skipped : bool) : M World unit :=
  λ w, ({| local := local w;
           rendered := rendered w ++ [(context, skipped)];
           requested := requested w |}, Return tt).

Definition note_request (path query : option string) : M World unit :=
  λ w, ({| local := local w; rendered := rendered w;
           requested := requested w ++ [(path, query)] |}, Return tt).

(** The decorator [render] installed on [Template.render]. *)
Definition render (func : Context_ → M World string)
  : Context_ → M World string :=
  λ context,
    w <- get ;;
    match modelurl_object (local w) with
    | Some _ => note_render context true ;;; ret EmptyString
    | None =>
        note_render context false ;;;
        match modelurl_object_name (local w) with
        | Some name =>
            match context !! name with
            | Some obj => set_modelurl_object obj
            | None => ret tt
            end
        | None => ret tt
        end ;;;
        func context
    end.

(** What a view does, as far as this module can see it: it returns, it
    raises, or it renders a template with a context and goes on with the
    output.  [body] is the original [Template.render] of that template on
    that context, which may render further templates. *)
Inductive prog (R : Type) : Type :=
  | Done (r : R)
  | Fail (e : exception)
  | RenderTemplate (body : prog string) (context : Context_)
      (k : string → prog R).
Arguments Done {R} r.
Arguments Fail {R} e.
Arguments RenderTemplate {R} body context k.

(** Running a view with the decorated [Template.render] in place. *)
Fixpoint run {R : Type} (p : prog R) : M World R :=
  match p with
  | Done r => ret r
  | Fail e => raise e
  | RenderTemplate body context k =>
      out <- render (λ _, run body) context ;; run (k out)
  end.

Record Response : Type := { status_code : Z }.

Definition fresh_local : Local :=
  {| modelurl_object_name := None; modelurl_object := None |}.

(** Modelled from the spec: the decorator [threadmethod] of the package
    urlmethods is not part of the sources.  Following the data model (the
    slot is created on first use per execution context and is never
    shared), the decorated function runs in an execution context of its
    own, whose [local] starts without attributes, and its result or
    exception is handed to the caller, whose own [local] is untouched. *)
Definition threadmethod {A} (func : M World A) : M World A :=
  λ w,
    let '(w', r) := func {| local := fresh_local; rendered := rendered w;
                            requested := requested w |} in
    ({| local := local w; rendered := rendered w';
        requested := requested w' |}, r).

Section object_from_view.

(** [local_response(path, query)] of the package urlmethods: the view
    for the path is run in process and the response is returned. *)
Variable local_response : option string → option string → prog Response.

Definition object_from_view_func (path query : option string)
    (object_name : string) : M World PyObject :=
  set_modelurl_object_name object_name ;;;
  response <- (note_request path query ;;; run (local_response path query)) ;;
  if bool_decide (status_code response ≠ 200%Z)
  then raise DoesNotFoundException
  else
    try_except
      (w <- get ;;
       match modelurl_object (local w) with
       | Some obj => ret obj
       | None => raise AttributeError
       end)
      (λ e, match e with
            | AttributeError => raise DoesNotFoundException
            | _ => raise e
            end).

Definition object_from_view (path query : option string)
    (object_name : string) : M World PyObject :=
  threadmethod (object_from_view_func path query object_name).

End object_from_view.

(** ** ReplaceByView *)

Module ReplaceByView.

Definition SERVER_SCHEMES : list string := ["http"].

(** The name [generate_macro] is used by [url] but bound nowhere in the
    module, which defines [macro] and imports no [generate_macro]:
    evaluating the name raises [NameError]. *)
Definition generate_macro {St} : M St (PyClass → Z → string) :=
  raise (NameError "generate_macro").

Section collaborators.

(** The identity of a view function, as the url resolver returns it. *)
Context {Callback : Type} `{Countable Callback}.

(** [importpath]: the object a dotted path names. *)
Variable importpath : string → Callback.
(** [settings.MODELURL_VIEWS], as its items. *)
Variable MODELURL_VIEWS : list (string * string).
(** [[site.domain for site in Site.objects.all()]] *)
Variable site_domains : list string.
(** [bool(MACRO_RE.match(value))], the pattern of the middleware. *)
Variable MACRO_RE_match : string → bool.
(** [urlsplit] and [urljoin] of the package urlmethods; a component
    may be [None]. *)
Variable urlsplit : string →
  option string * option string * option string * option string
  * option string.
Variable urljoin : option string → option string → option string →
  option string → option string → string.
(** [RegexURLResolver(r'^/', settings.ROOT_URLCONF).resolve]: the
    callback, or the exception the resolver raises. *)
Variable resolve : string → result Callback.
Variable local_response : option string → option string → prog Response.

Record t : Type := {
  silent : bool;
  views : gmap Callback string;
  sites : list string;
  send_query : bool
}.

Definition __init__ (views : option (list (string * string)))
    (sites : option (list string)) (send_query silent : bool) : t :=
  let views := match views with
               | None => MODELURL_VIEWS
               | Some views => views
               end in
  let sites := match sites with
               | None => site_domains
               | Some sites => sites
               end in
  {| silent := silent;
     views := foldl (λ d item, <[importpath item.1 := item.2]> d) ∅ views;
     sites := sites;
     send_query := send_query |}.

(** [x and x.lower() not in container] *)
Definition foreign_part (x : option string) (container : list string)
  : bool :=
  match x with
  | Some s =>
      negb (String.eqb s "") && negb (bool_decide (lower s ∈ container))
  | None => false
  end.

(** The body of [url], before decoration. *)
Definition url_func (self : t) (value : string) : M World string :=
  if MACRO_RE_match value then raise AlreadyMacroException else
  let '(scheme, authority, path, query, fragment) := urlsplit value in
  if negb (truthy scheme) && negb (truthy authority) && negb (truthy path)
  then raise NoPathException else
  if foreign_part scheme SERVER_SCHEMES
     || foreign_part authority (sites self)
  then raise ForeignException else
  match resolve value with
  | Raise e => raise e
  | Return callback =>
      object_name <-
        try_except
          (match views self !! callback with
           | Some name => ret name
           | None => raise KeyError
           end)
          (λ e, match e with
                | KeyError => raise DoesNotFoundException
                | _ => raise e
                end) ;;
      let send_query := if send_query self then query else Some "" in
      obj <- object_from_view local_response path send_query object_name ;;
      generate_macro <- generate_macro ;;
      let path := generate_macro (__class__ obj) (id obj) in
      ret (urljoin None None (Some path) query fragment)
  end.

Definition url (self : t) : string → M World string :=
  silentmethod (λ _, silent self) (url_func self).

End collaborators.

End ReplaceByView.

(** ** The installation of the hook *)

(** The class [Template] as far as the module touches it: its method
    [render] and the marker attribute [render_by_model_url] ([false]: the
    attribute is not set). *)
Record Template_class : Type := {
  Template_render : Context_ → M World string;
  render_by_model_url : bool
}.

(** The guarded block that follows the definition of [render]: it runs
    each time the module is executed. *)
Definition install (Template : Template_class) : Template_class :=
  if negb (render_by_model_url Template)
  then {| Template_render := render (Template_render Template);
          render_by_model_url := true |}
  else Template.

(** ** Notions used in the statements *)

(** [key] occurs at the start of [s], letter case ignored. *)
Definition occurs_here (key s : string) : bool :=
  String.prefix (lower key) (lower s).

(** [s[n:]] *)
Fixpoint string_drop (n : nat) (s : string) : string :=
  match n, s with
  | S n', String _ s' => string_drop n' s'
  | _, _ => s
  end.

(** The earliest entry of [l] whose key occurs at the start of [s]. *)
Definition first_alt (l : list (string * string)) (s : string)
  : option (string * string) :=
  List.find (λ item, occurs_here item.1 s) l.

(** The rewriting of a text as the specification words it, for the
    alternation [l]: a single pass from the left; where some key occurs,
    the text it covers is replaced by the macro of the earliest entry of
    [l] whose key occurs there, and the pass goes on after the covered
    text; any other character is copied.  The flag says that a replaced
    occurrence ended at this very position: an empty key is replaced
    only where that is not the case. *)
Inductive Rewritten (l : list (string * string))
  : bool → string → string → Prop :=
  | rw_end adjacent :
      first_alt l "" = None →
      Rewritten l adjacent "" ""
  | rw_copy adjacent c s out :
      first_alt l (String c s) = None →
      Rewritten l false s out →
      Rewritten l adjacent (String c s) (String c out)
  | rw_replace adjacent s key macro out :
      first_alt l s = Some (key, macro) →
      key ≠ "" →
      Rewritten l true (string_drop (String.length key) s) out →
      Rewritten l adjacent s (macro +:+ out)
  | rw_empty_end macro :
      first_alt l "" = Some ("", macro) →
      Rewritten l false "" macro
  | rw_empty c s macro out :
      first_alt l (String c s) = Some ("", macro) →
      Rewritten l false s out →
      Rewritten l false (String c s) (macro +:+ String c out)
  | rw_ignored_end macro :
      first_alt l "" = Some ("", macro) →
      Rewritten l true "" ""
  | rw_ignored c s macro out :
      first_alt l (String c s) = Some ("", macro) →
      Rewritten l false s out →
      Rewritten l true (String c s) (String c out).

(** Every suffix of [s], [s] itself and the empty one included. *)
Fixpoint suffixes (s : string) : list string :=
  match s with
  | EmptyString => [EmptyString]
  | String _ s' => s :: suffixes s'
  end.

(** [x] equals a member of [container] up to letter case. *)
Definition in_nocase (x : string) (container : list string) : Prop :=
  ∃ y, y ∈ container ∧ lower y = lower x.

(** The normalised mapping, the sorted alternation and the compiled
    pattern that belong to a source dictionary. *)
Definition the_dict (src : list (string * string)) : gmap string string :=
  ReplaceByDict.lowered src.

Definition the_list (src : list (string * string)) : list (string * string) :=
  sort_reverse (map_to_list (the_dict src)).

Definition the_regexp (src : list (string * string)) : SRE_Pattern :=
  {| literals := fst <$> the_list src; IGNORECASE := true |}.

(** The keys of a source dictionary up to letter case: the lower-casing
    of each key, once. *)
Definition distinct_keys (src : list (string * string)) : list string :=
  remove_dups ((λ item, lower item.1) <$> src).

(** The caches of a [ReplaceByDict], where built, hold what belongs to
    its source; a pattern is held only if it could be compiled. *)
Definition consistent (self : ReplaceByDict.t) : Prop :=
  (∀ d, ReplaceByDict.dict self = Some d →
        d = the_dict (ReplaceByDict.source self))
  ∧ (∀ l, ReplaceByDict.list_ self = Some l →
          l = the_list (ReplaceByDict.source self))
  ∧ (∀ r, ReplaceByDict.regexp self = Some r →
          r = the_regexp (ReplaceByDict.source self)
          ∧ (length (distinct_keys (ReplaceByDict.source self)) < 100)%nat).

(** [self'] is [self] after some calls of its methods. *)
Definition later (self self' : ReplaceByDict.t) : Prop :=
  ReplaceByDict.source self' = ReplaceByDict.source self
  ∧ ReplaceByDict.silent self' = ReplaceByDict.silent self
  ∧ consistent self'.

(** The state in which the thread of [object_from_view] calls
    [local_response]: a [local] of its own with the requested name, and
    the request noted. *)
Definition thread_start (w : World) (path query : option string)
    (object_name : string) : World :=
  {| local := {| modelurl_object_name := Some object_name;
                 modelurl_object := None |};
     rendered := rendered w;
     requested := requested w ++ [(path, query)] |}.

(** Back in the calling thread. *)
Definition thread_end (w w' : World) : World :=
  {| local := local w; rendered := rendered w'; requested := requested w' |}.

(** The three checks of [ReplaceByView.url] let [value] through. *)
Definition passes_validation {Callback : Type} `{Countable Callback}
    (MACRO_RE_match : string → bool)
    (urlsplit : string →
       option string * option string * option string * option string
       * option string)
    (self : ReplaceByView.t (Callback:=Callback)) (value : string) : bool :=
  let '(scheme, authority, path, _, _) := urlsplit value in
  negb (MACRO_RE_match value)
  && (truthy scheme || truthy authority || truthy path)
  && negb (ReplaceByView.foreign_part scheme ReplaceByView.SERVER_SCHEMES)
  && negb (ReplaceByView.foreign_part authority (ReplaceByView.sites self)).

(** Running a view with the original [Template.render], as it is
    before the hook is installed: no state of the module is involved. *)
Fixpoint run_original {R : Type} (p : prog R) : result R :=
  match p with
  | Done r => Return r
  | Fail e => Raise e
  | RenderTemplate body context k =>
      match run_original body with
      | Return out => run_original (k out)
      | Raise e => Raise e
      end
  end.

(** The record of the render passes of one call: starting with the
    captured object [cur] (if any), each pass is skipped exactly when an
    object has been captured before it, and a pass that is not skipped
    captures what its context holds under the requested name; [final] is
    what is captured in the end. *)
Inductive trace_ok (name : option string)
  : option PyObject → list (Context_ * bool) → option PyObject → Prop :=
  | ok_nil cur : trace_ok name cur [] cur
  | ok_skip obj context passes final :
      trace_ok name (Some obj) passes final →
      trace_ok name (Some obj) ((context, true) :: passes) final
  | ok_pass context passes final :
      trace_ok name (name ≫= λ n, context !! n) passes final →
      trace_ok name None ((context, false) :: passes) final.

(** ** Sample data *)

Module Examples.

(** The mapping of the specification's examples. *)
Definition pages : list (string * string) :=
  [("/page/1", "{@ models.Page 1 @}"); ("/item/2", "{@ models.Item 2 @}")].

(** Two urls that differ in letter case only. *)
Definition colliding : list (string * string) :=
  [("/A", "{@ models.Page 1 @}"); ("/a", "{@ models.Page 2 @}")].


(** A mapping with [n] pages. *)
Definition many (n : nat) : list (string * string) :=
  (λ i : nat, ("/page/" +:+ pretty i, "{@ models.Page " +:+ pretty i +:+ " @}"))
    <$> seq 0 n.

(** A relative url as key: its text occurs in its own macro. *)
Definition relative : list (string * string) :=
  [("page", "{@ models.Page 1 @}")].

(** The object of the happy path of the specification. *)
Definition Thing : PyObject :=
  {| __class__ := {| __module__ := "pkg"; __name__ := "Thing" |};
     pk := 1; id := 1 |}.

(** Collaborators that know the urls of the examples. *)
Definition MACRO_RE_match (value : string) : bool :=
  String.prefix "{@ " value.

Definition urlsplit (value : string)
  : option string * option string * option string * option string
    * option string :=
  if String.eqb value "http://evil.example/x"
  then (Some "http", Some "evil.example", Some "/x", None, None)
  else if String.eqb value "http://good.example/objects/1"
  then (Some "http", Some "good.example", Some "/objects/1", None, None)
  else if String.eqb value "mailto:a@b.com"
  then (Some "mailto", None, Some "a@b.com", None, None)
  else if String.eqb value "#top"
  then (None, None, None, None, Some "top")
  else (None, None, Some value, None, None).

Definition urljoin (scheme authority path query fragment : option string)
  : string :=
  from_option (λ s, s +:+ ":") "" scheme
  +:+ from_option (λ a, "//" +:+ a) "" authority
  +:+ default "" path
  +:+ from_option (λ q, "?" +:+ q) "" query
  +:+ from_option (λ f, "#" +:+ f) "" fragment.

(** A resolver with one route, which raises [Resolver404] otherwise. *)
Definition resolve (value : string) : result string :=
  if String.eqb value "/objects/1" then Return "views.thing"
  else if String.eqb value "/about" then Return "views.about"
  else Raise Resolver404.

(** The view of [/objects/1] renders one template, with [obj] in the
    context; a second render pass with another object follows. *)
Definition local_response (path query : option string) : prog Response :=
  if bool_decide (path = Some "/objects/1") then
    RenderTemplate (Done "<h1>Thing</h1>") {["obj" := Thing]}
      (λ _, RenderTemplate (Done "<p>footer</p>")
              {["obj" := {| __class__ := __class__ Thing; pk := 2; id := 2 |}]}
              (λ _, Done {| status_code := 200 |}))
  else Done {| status_code := 404 |}.

Definition replacer (silent : bool) : ReplaceByView.t (Callback:=string) :=
  {| ReplaceByView.silent := silent;
     ReplaceByView.views := {["views.thing" := "obj"]};
     ReplaceByView.sites := ["good.example"];
     ReplaceByView.send_query := false |}.

Definition idle : World :=
  {| local := fresh_local; rendered := []; requested := [] |}.

End Examples.

(** * Properties *)

(** ** Letter case and the order of keys *)

Lemma ascii_lower_idemp c : ascii_lower (ascii_lower c) = ascii_lower c.
Proof. destruct c as [[] [] [] [] [] [] [] []]; reflexivity. Qed.

Lemma lower_idemp s : lower (lower s) = lower s.
Proof.
  induction s as [|c s IH]; simpl; [done|].
  by rewrite ascii_lower_idemp, IH.
Qed.

Lemma ascii_compare_lt_trans a b c :
  Ascii.compare a b = Lt → Ascii.compare b c = Lt → Ascii.compare a c = Lt.
Proof. unfold Ascii.compare. rewrite !N.compare_lt_iff. lia. Qed.

Lemma ascii_compare_refl a : Ascii.compare a a = Eq.
Proof. unfold Ascii.compare. apply N.compare_refl. Qed.

Lemma string_compare_refl s : String.compare s s = Eq.
Proof.
  induction s as [|c s IH]; simpl; [done|]. by rewrite ascii_compare_refl.
Qed.

Lemma string_compare_lt_trans s1 s2 s3 :
  String.compare s1 s2 = Lt → String.compare s2 s3 = Lt →
  String.compare s1 s3 = Lt.
Proof.
  revert s2 s3.
  induction s1 as [|a s1 IH]; intros [|b s2] [|c s3]; simpl; try done.
  destruct (Ascii.compare a b) eqn:Hab; try done.
  - apply Ascii.compare_eq_iff in Hab as ->.
    destruct (Ascii.compare b c); try done. apply IH.
  - intros _. destruct (Ascii.compare b c) eqn:Hbc; try done.
    + apply Ascii.compare_eq_iff in Hbc as <-. by rewrite Hab.
    + by rewrite (ascii_compare_lt_trans _ _ _ Hab Hbc).
Qed.

Lemma tuple_compare_eq a b : tuple_compare a b = Eq → a = b.
Proof.
  destruct a as [a1 a2], b as [b1 b2]. unfold tuple_compare; simpl.
  destruct (String.compare a1 b1) eqn:H1; try done.
  intros H2. apply String.compare_eq_iff in H1, H2. congruence.
Qed.

Lemma tuple_compare_antisym a b :
  tuple_compare a b = CompOpp (tuple_compare b a).
Proof.
  unfold tuple_compare. rewrite (String.compare_antisym b.1 a.1).
  destruct (String.compare a.1 b.1); simpl; try done.
  apply String.compare_antisym.
Qed.

Lemma tuple_compare_lt_trans a b c :
  tuple_compare a b = Lt → tuple_compare b c = Lt → tuple_compare a c = Lt.
Proof.
  unfold tuple_compare.
  destruct (String.compare a.1 b.1) eqn:Hab; try done.
  - apply String.compare_eq_iff in Hab. rewrite Hab.
    destruct (String.compare b.1 c.1); try done.
    apply string_compare_lt_trans.
  - intros _. destruct (String.compare b.1 c.1) eqn:Hbc; try done.
    + apply String.compare_eq_iff in Hbc. by rewrite <- Hbc, Hab.
    + by rewrite (string_compare_lt_trans _ _ _ Hab Hbc).
Qed.

Global Instance tuple_ge_total : Total tuple_ge.
Proof.
  intros a b. unfold tuple_ge. rewrite (tuple_compare_antisym b a).
  destruct (tuple_compare a b); simpl; auto.
Qed.

Global Instance tuple_ge_trans : Transitive tuple_ge.
Proof.
  intros a b c. unfold tuple_ge.
  rewrite (tuple_compare_antisym a b), (tuple_compare_antisym b c),
    (tuple_compare_antisym a c).
  destruct (tuple_compare b a) eqn:Hba; simpl; try done.
  - by apply tuple_compare_eq in Hba as ->.
  - intros _. destruct (tuple_compare c b) eqn:Hcb; simpl; try done.
    + apply tuple_compare_eq in Hcb as ->. by rewrite Hba.
    + by rewrite (tuple_compare_lt_trans _ _ _ Hcb Hba).
Qed.

Global Instance tuple_ge_antisym : AntiSymm (=) tuple_ge.
Proof.
  intros a b. unfold tuple_ge. rewrite (tuple_compare_antisym b a).
  destruct (tuple_compare a b) eqn:Hab; simpl; try done.
  intros. by apply tuple_compare_eq.
Qed.

Lemma sort_reverse_sorted l : StronglySorted tuple_ge (sort_reverse l).
Proof. apply StronglySorted_merge_sort; apply _. Qed.

Lemma sort_reverse_perm l : sort_reverse l ≡ₚ l.
Proof. apply merge_sort_Permutation. Qed.

(** Sorting again what [get_list] has sorted changes nothing. *)
Lemma sort_reverse_idemp l : sort_reverse (sort_reverse l) = sort_reverse l.
Proof.
  apply (StronglySorted_unique tuple_ge);
    auto using sort_reverse_sorted, sort_reverse_perm.
Qed.

(** ** The caches of ReplaceByDict *)

Lemma init_consistent src silent :
  consistent (ReplaceByDict.__init__ src silent).
Proof. split; [|split]; intros ? [=]. Qed.

Lemma later_refl self : consistent self → later self self.
Proof. by intros. Qed.

Lemma later_trans self1 self2 self3 :
  later self1 self2 → later self2 self3 → later self1 self3.
Proof.
  intros (Hs1 & Hb1 & _) (Hs2 & Hb2 & Hc). split; [congruence|].
  split; [congruence|exact Hc].
Qed.

(** Each accessor returns what belongs to the source, whether the cache
    was built before or not, and leaves consistent caches. *)
Lemma get_dict_spec self :
  consistent self →
  ∃ self', ReplaceByDict.get_dict self
           = (self', Return (the_dict (ReplaceByDict.source self)))
           ∧ later self self'.
Proof.
  intros Hc. pose proof Hc as (Hd & Hl & Hr).
  unfold ReplaceByDict.get_dict, bind, get.
  destruct (ReplaceByDict.dict self) as [d|] eqn:E.
  - exists self. rewrite (Hd _ eq_refl). by split; [|apply later_refl].
  - eexists. split; [reflexivity|].
    split; [done|]. split; [done|].
    split; [by intros ? [= <-]|]. split; simpl; auto.
Qed.

Lemma get_list_spec self :
  consistent self →
  ∃ self', ReplaceByDict.get_list self
           = (self', Return (the_list (ReplaceByDict.source self)))
           ∧ later self self'.
Proof.
  intros Hc. pose proof Hc as (Hd & Hl & Hr).
  unfold ReplaceByDict.get_list. unfold bind at 1. unfold get.
  destruct (ReplaceByDict.list_ self) as [l|] eqn:E.
  - rewrite (Hl _ eq_refl). unfold bind, ret, ReplaceByDict.set_list; simpl.
    unfold the_list. rewrite sort_reverse_idemp.
    eexists. split; [reflexivity|].
    split; [done|]. split; [done|].
    split; [simpl; auto|]. split; [by intros ? [= <-]|simpl; auto].
  - unfold bind at 1. unfold bind at 1.
    destruct (get_dict_spec self Hc) as (self1 & -> & Hs & Hsil & Hd1 & Hl1 & Hr1).
    unfold bind, ret, ReplaceByDict.set_list; simpl.
    eexists. split; [reflexivity|].
    split; [done|]. split; [done|].
    split; [simpl; auto|].
    split; [by intros ? [= <-]; rewrite Hs|simpl; auto].
Qed.

(** The keys of the normalised mapping are the lower-casings of the keys
    of the source. *)
Lemma the_dict_dom src key :
  is_Some (the_dict src !! key) ↔ key ∈ (λ item, lower item.1) <$> src.
Proof.
  unfold the_dict, ReplaceByDict.lowered.
  induction src as [|item src IH] using rev_ind.
  - simpl. rewrite lookup_empty.
    split; [by intros [? ?]|by intros ?%elem_of_nil].
  - rewrite foldl_app, fmap_app, elem_of_app. simpl.
    rewrite list_elem_of_singleton.
    destruct (decide (lower item.1 = key)) as [<-|Hne].
    + rewrite lookup_insert_eq. split; [by right|by eexists].
    + rewrite lookup_insert_ne by done. rewrite IH.
      split; [by left|]. intros [?|?]; [done|]. by destruct Hne.
Qed.

(** The sorted list has each of these keys once. *)
Lemma the_list_keys src : (the_list src).*1 ≡ₚ distinct_keys src.
Proof.
  apply NoDup_Permutation.
  - unfold the_list. rewrite sort_reverse_perm. apply NoDup_fst_map_to_list.
  - apply NoDup_remove_dups.
  - intros key. unfold distinct_keys. rewrite elem_of_remove_dups.
    rewrite <- the_dict_dom. unfold the_list. rewrite sort_reverse_perm.
    rewrite list_elem_of_fmap. split.
    + intros ([key' macro] & -> & Hin). apply elem_of_map_to_list in Hin.
      by eexists.
    + intros [macro Hin]. exists (key, macro). split; [done|].
      by apply elem_of_map_to_list.
Qed.

Lemma the_list_length src :
  length (the_list src) = length (distinct_keys src).
Proof. by rewrite <- (the_list_keys src), length_fmap. Qed.

(** [get_regexp] returns the pattern of the source when the source has
    fewer than 100 keys up to letter case, and raises [AssertionError]
    otherwise, at every call. *)
Lemma get_regexp_spec self :
  consistent self →
  ∃ self', ReplaceByDict.get_regexp self
           = (self',
              if bool_decide
                   (length (distinct_keys (ReplaceByDict.source self)) < 100)%nat
              then Return (the_regexp (ReplaceByDict.source self))
              else Raise AssertionError)
           ∧ later self self'.
Proof.
  intros Hc. pose proof Hc as (Hd & Hl & Hr).
  unfold ReplaceByDict.get_regexp. unfold bind at 1. unfold get.
  destruct (ReplaceByDict.regexp self) as [r|] eqn:E.
  - exists self. destruct (Hr _ eq_refl) as [-> Hlen].
    rewrite bool_decide_eq_true_2 by done. by split; [|apply later_refl].
  - unfold bind at 1.
    destruct (get_list_spec self Hc) as (self1 & -> & Hs & Hsil & Hd1 & Hl1 & Hr1).
    unfold bind at 1, re_compile.
    rewrite length_fmap, the_list_length.
    destruct (decide (length (distinct_keys (ReplaceByDict.source self)) < 100)%nat)
      as [Hlen|Hlen].
    + rewrite bool_decide_eq_false_2 by lia.
      rewrite bool_decide_eq_true_2 by done.
      unfold bind, ret, ReplaceByDict.set_regexp; simpl.
      eexists. split; [reflexivity|].
      split; [done|]. split; [done|]. split; [done|]. split; [done|].
      simpl. intros ? [= <-]. by rewrite Hs.
    + rewrite bool_decide_eq_true_2 by lia.
      rewrite bool_decide_eq_false_2 by done.
      exists self1. by split.
Qed.

(** ** silentmethod *)

Lemma silentmethod_return {St} (silent : St → bool) func value st st' a :
  func value st = (st', Return a) →
  silentmethod silent func value st = (st', Return a).
Proof. intros Hf. unfold silentmethod, try_except. by rewrite Hf. Qed.

Lemma silentmethod_replace {St} (silent : St → bool) func value st st' e :
  func value st = (st', Raise e) →
  is_ReplaceException e = true →
  silentmethod silent func value st
  = (st', if silent st' then Return value else Raise e).
Proof.
  intros Hf He. unfold silentmethod, try_except. rewrite Hf, He.
  unfold bind, get, ret, raise. by destruct (silent st').
Qed.

Lemma silentmethod_other {St} (silent : St → bool) func value st st' e :
  func value st = (st', Raise e) →
  is_ReplaceException e = false →
  silentmethod silent func value st = (st', Raise e).
Proof.
  intros Hf He. unfold silentmethod, try_except. by rewrite Hf, He.
Qed.

(** ** ReplaceByDict.url *)

(** The normalised mapping holds, for a lower-cased key, the macro of the
    last item of the source with that lower-casing. *)
Lemma the_dict_lookup src k :
  the_dict src !! k
  = snd <$> last (filter (λ item, lower item.1 = k) src).
Proof.
  unfold the_dict, ReplaceByDict.lowered.
  induction src as [|item src IH] using rev_ind; [done|].
  rewrite foldl_app, filter_app. simpl.
  rewrite filter_cons, filter_nil.
  destruct (decide (lower item.1 = k)) as [<-|Hne].
  - by rewrite lookup_insert_eq, last_snoc.
  - rewrite lookup_insert_ne by done. by rewrite app_nil_r.
Qed.

Lemma url_func_spec self value :
  consistent self →
  ∃ self', ReplaceByDict.url_func value self
           = (self', match the_dict (ReplaceByDict.source self) !! lower value with
                     | Some macro => Return macro
                     | None => Raise DoesNotFoundException
                     end)
           ∧ later self self'.
Proof.
  intros Hc. unfold ReplaceByDict.url_func, try_except, bind.
  destruct (get_dict_spec self Hc) as (self1 & -> & Hlater).
  exists self1. split; [|done].
  by destruct (the_dict (ReplaceByDict.source self) !! lower value).
Qed.

Lemma url_spec self value :
  consistent self →
  ∃ self', ReplaceByDict.url value self
           = (self', match the_dict (ReplaceByDict.source self) !! lower value with
                     | Some macro => Return macro
                     | None => if ReplaceByDict.silent self then Return value
                               else Raise DoesNotFoundException
                     end)
           ∧ later self self'.
Proof.
  intros Hc. destruct (url_func_spec self value Hc) as (self1 & Hf & Hl).
  exists self1. split; [|done]. unfold ReplaceByDict.url.
  destruct (the_dict (ReplaceByDict.source self) !! lower value).
  - by apply silentmethod_return.
  - rewrite (silentmethod_replace _ _ _ _ _ _ Hf eq_refl).
    destruct Hl as (_ & -> & _). done.
Qed.

Lemma url_func_silent self value :
  ReplaceByDict.silent (ReplaceByDict.url_func value self).1
  = ReplaceByDict.silent self.
Proof.
  unfold ReplaceByDict.url_func, try_except, bind, ReplaceByDict.get_dict,
    bind, get, ret, raise, ReplaceByDict.set_dict.
  destruct (ReplaceByDict.dict self); simpl.
  - destruct (_ !! _); done.
  - destruct (_ !! _); done.
Qed.

(** C4, as stated, fails: with two keys that differ in letter case only,
    the url ["/a"] matches both up to case, and [url] cannot return the
    macro of each; whatever the iteration order of the dictionary, it
    returns the macro of the key that comes last. *)
Lemma url_by_dict_collision :
  ¬ (∀ key macro,
       (key, macro) ∈ Examples.colliding →
       lower "/a" = lower key →
       (ReplaceByDict.url "/a"
          (ReplaceByDict.__init__ Examples.colliding false)).2
       = Return macro)
  ∧ ¬ (∀ key macro,
         (key, macro) ∈ reverse Examples.colliding →
         lower "/a" = lower key →
         (ReplaceByDict.url "/a"
            (ReplaceByDict.__init__ (reverse Examples.colliding) false)).2
         = Return macro).
Proof.
  split; intros Hclaim.
  - specialize (Hclaim "/A" "{@ models.Page 1 @}").
    vm_compute in Hclaim. by specialize (Hclaim ltac:(by left) eq_refl).
  - specialize (Hclaim "/a" "{@ models.Page 2 @}").
    vm_compute in Hclaim. by specialize (Hclaim ltac:(by left) eq_refl).
Qed.

(** C4, amended: for a url whose lower-casing is that of a key of the
    mapping, [url] returns the macro of that key provided every key with
    this lower-casing has the same macro; for a url whose lower-casing is
    that of no key it raises [DoesNotFoundException] when not silent and
    returns the url unchanged when silent. *)
Theorem url_by_dict self value :
  consistent self →
  (∀ key macro,
     (key, macro) ∈ ReplaceByDict.source self →
     lower value = lower key →
     (∀ key' macro', (key', macro') ∈ ReplaceByDict.source self →
                     lower key' = lower key → macro' = macro) →
     (ReplaceByDict.url value self).2 = Return macro)
  ∧ ((∀ key macro, (key, macro) ∈ ReplaceByDict.source self →
                   lower value ≠ lower key) →
     (ReplaceByDict.url value self).2
     = if ReplaceByDict.silent self then Return value
       else Raise DoesNotFoundException).
Proof.
  intros Hc. destruct (url_spec self value Hc) as (self' & -> & _). simpl.
  rewrite the_dict_lookup. split.
  - intros key macro Hin Hlow Huniq.
    destruct (last _) as [item|] eqn:Hlast; simpl.
    + apply last_Some_elem_of, list_elem_of_filter in Hlast as [Hitem Hsrc].
      destruct item as [key' macro']. simpl in *.
      f_equal. apply (Huniq key'); congruence.
    + apply last_None in Hlast.
      assert ((key, macro) ∈ filter (λ item, lower item.1 = lower value)
                (ReplaceByDict.source self)) as Hf
        by (apply list_elem_of_filter; split; [done|done]).
      rewrite Hlast in Hf. by apply elem_of_nil in Hf.
  - intros Hnone.
    destruct (last _) as [[key macro]|] eqn:Hlast; simpl; [|done].
    apply last_Some_elem_of, list_elem_of_filter in Hlast as [Hitem Hsrc].
    simpl in *. by destruct (Hnone key macro).
Qed.

Lemma url_by_dict_witness :
  (ReplaceByDict.url "/PAGE/1"
     (ReplaceByDict.__init__ Examples.pages false)).2
  = Return "{@ models.Page 1 @}"
  ∧ (ReplaceByDict.url "/page/3"
       (ReplaceByDict.__init__ Examples.pages false)).2
    = Raise DoesNotFoundException
  ∧ (ReplaceByDict.url "/page/3"
       (ReplaceByDict.__init__ Examples.pages true)).2
    = Return "/page/3".
Proof.
  split; [|split].
  - apply (proj1 (url_by_dict (ReplaceByDict.__init__ Examples.pages false)
                    "/PAGE/1" (init_consistent _ _)) "/page/1").
    + by left.
    + reflexivity.
    + intros key' macro' Hin Hlow. simpl in Hin.
      unfold Examples.pages in Hin.
      rewrite !elem_of_cons, elem_of_nil in Hin.
      destruct Hin as [[= -> ->]|[[= -> ->]|[]]]; [done|discriminate].
  - apply (proj2 (url_by_dict (ReplaceByDict.__init__ Examples.pages false)
                    "/page/3" (init_consistent _ _))).
    intros key macro Hin. simpl in Hin. unfold Examples.pages in Hin.
    rewrite !elem_of_cons, elem_of_nil in Hin.
    destruct Hin as [[= -> ->]|[[= -> ->]|[]]]; discriminate.
  - apply (proj2 (url_by_dict (ReplaceByDict.__init__ Examples.pages true)
                    "/page/3" (init_consistent _ _))).
    intros key macro Hin. simpl in Hin. unfold Examples.pages in Hin.
    rewrite !elem_of_cons, elem_of_nil in Hin.
    destruct Hin as [[= -> ->]|[[= -> ->]|[]]]; discriminate.
Defined.

(** ** The alternation engine *)

Lemma char_eq_lower k c :
  char_eq true k c = bool_decide (ascii_lower k = ascii_lower c).
Proof.
  unfold char_eq. destruct (Ascii.eqb_spec (ascii_lower k) (ascii_lower c)).
  - by rewrite bool_decide_eq_true_2.
  - by rewrite bool_decide_eq_false_2.
Qed.

Lemma prefix_cons a b s1 s2 :
  String.prefix (String a s1) (String b s2)
  = bool_decide (a = b) && String.prefix s1 s2.
Proof.
  simpl. destruct (ascii_dec a b).
  - by rewrite bool_decide_eq_true_2.
  - by rewrite bool_decide_eq_false_2.
Qed.

(** A literal matches, case ignored, exactly where the key occurs, and
    then covers as many characters as the key has. *)
Lemma literal_match_Some key s text :
  literal_match true key s = Some text →
  occurs_here key s = true
  ∧ String.length text = String.length key
  ∧ (String.length key ≤ String.length s)%nat.
Proof.
  unfold occurs_here. revert s text.
  induction key as [|k key IH]; intros s text; cbn [literal_match].
  - intros [= <-]. destruct (lower s); simpl; auto with lia.
  - destruct s as [|c s]; [done|]. rewrite char_eq_lower.
    case_bool_decide as Hkc; [|done].
    destruct (literal_match true key s) as [text'|] eqn:Hm; [|done].
    intros [= <-]. destruct (IH _ _ Hm) as (Ho & Hlen & Hle).
    cbn [lower]. rewrite prefix_cons, Ho, bool_decide_eq_true_2 by done.
    simpl. auto with lia.
Qed.

Lemma literal_match_None key s :
  literal_match true key s = None → occurs_here key s = false.
Proof.
  unfold occurs_here. revert s.
  induction key as [|k key IH]; intros s; cbn [literal_match]; [done|].
  destruct s as [|c s]; [done|]. rewrite char_eq_lower.
  cbn [lower]. rewrite prefix_cons.
  case_bool_decide as Hkc; [|done].
  destruct (literal_match true key s) eqn:Hm; [done|].
  intros _. by rewrite (IH _ Hm).
Qed.

(** The alternation finds the earliest entry whose key occurs here, and
    sets the group of that entry only. *)
Lemma alternation_first_alt (l : list (string * string)) s :
  match alternation true (fst <$> l) s with
  | None => first_alt l s = None
  | Some m =>
      ∃ i item,
        l !! i = Some item
        ∧ first_alt l s = Some item
        ∧ String.length (group0 m) = String.length item.1
        ∧ (String.length item.1 ≤ String.length s)%nat
        ∧ groups m = (replicate i None ++ Some (group0 m)
                        :: replicate (length l - S i) None)%list
  end.
Proof.
  unfold first_alt. induction l as [|item l IH]; [done|].
  cbn [fmap list_fmap alternation List.find].
  destruct (literal_match true item.1 s) as [text|] eqn:Hm.
  - destruct (literal_match_Some _ _ _ Hm) as (Ho & Hlen & Hle).
    exists 0, item. rewrite Ho. simpl.
    repeat split; auto. f_equal.
    rewrite Nat.sub_0_r. clear. induction l; simpl; by f_equal.
  - rewrite (literal_match_None _ _ Hm).
    destruct (alternation true (fst <$> l) s) as [m|]; simpl; [|done].
    destruct IH as (i & item' & Hi & Hf & Hlen & Hle & Hg).
    exists (S i), item'. simpl. by rewrite Hg.
Qed.

Lemma replace_from_spec self (l : list (string * string)) i index text tail :
  consistent self →
  l = the_list (ReplaceByDict.source self) →
  ∃ self',
    ReplaceByDict.replace_from index
      (replicate i None ++ Some text :: tail)%list self
    = (self', match l !! (index + i) with
              | Some item => Return item.2
              | None => Raise IndexError
              end)
    ∧ later self self'.
Proof.
  intros Hc ->. revert index.
  induction i as [|i IH]; intros index; simpl.
  - unfold bind.
    destruct (get_list_spec self Hc) as (self' & -> & Hl).
    exists self'. rewrite Nat.add_0_r.
    by destruct (the_list _ !! index).
  - destruct (IH (S index)) as (self' & -> & Hl).
    exists self'. by rewrite Nat.add_succ_r.
Qed.

Lemma subx_0 {St} p (repl : SRE_Match → M St string) adjacent s :
  subx p repl 0 adjacent s
  = match sre_match_here p s with
    | None =>
        match s with
        | EmptyString => ret EmptyString
        | String c s' => out <- subx p repl 0 false s' ;; ret (String c out)
        end
    | Some m =>
        match String.length (group0 m) with
        | O =>
            if adjacent then
              match s with
              | EmptyString => ret EmptyString
              | String c s' =>
                  out <- subx p repl 0 false s' ;; ret (String c out)
              end
            else
              item <- repl m ;;
              match s with
              | EmptyString => ret item
              | String c s' =>
                  out <- subx p repl 0 false s' ;;
                  ret (item +:+ String c out)
              end
        | S len =>
            item <- repl m ;;
            match s with
            | EmptyString => ret item
            | String _ s' =>
                out <- subx p repl len true s' ;; ret (item +:+ out)
            end
        end
    end.
Proof. by destruct s. Qed.

Lemma subx_skip {St} p (repl : SRE_Match → M St string) k s :
  (k ≤ String.length s)%nat →
  subx p repl k true s = subx p repl 0 true (string_drop k s).
Proof.
  revert s. induction k as [|k IH]; intros s Hk.
  - by destruct s.
  - destruct s as [|c s]; simpl in Hk; [lia|].
    simpl. apply IH. lia.
Qed.

Lemma string_length_zero s : String.length s = 0 → s = "".
Proof. by destruct s. Qed.

Lemma string_drop_length k s :
  (String.length (string_drop k s) ≤ String.length s)%nat.
Proof.
  revert s. induction k as [|k IH]; intros [|c s]; simpl; auto.
  all: try (specialize (IH s); lia).
Qed.

(** ** ReplaceByDict.text *)

(** With at least one key the compiled pattern is the alternation. *)
Lemma sre_match_here_alternation (l : list (string * string)) s :
  l ≠ [] →
  sre_match_here {| literals := fst <$> l; IGNORECASE := true |} s
  = alternation true (fst <$> l) s.
Proof. by destruct l. Qed.

(** With no key the pattern is [''], which matches the empty string
    anywhere and has no group. *)
Lemma sre_match_here_empty src s :
  the_list src = [] →
  sre_match_here (the_regexp src) s = Some {| group0 := ""; groups := [] |}.
Proof. intros El. unfold sre_match_here, the_regexp. simpl. by rewrite El. Qed.

(** On a match found at the start of [s], [replace] returns the macro of
    the earliest entry of the sorted list whose key occurs there. *)
Lemma replace_spec self s m :
  consistent self →
  sre_match_here (the_regexp (ReplaceByDict.source self)) s = Some m →
  the_list (ReplaceByDict.source self) ≠ [] →
  ∃ self' item,
    ReplaceByDict.replace m self = (self', Return item.2)
    ∧ later self self'
    ∧ first_alt (the_list (ReplaceByDict.source self)) s = Some item
    ∧ String.length (group0 m) = String.length item.1
    ∧ (String.length item.1 ≤ String.length s)%nat.
Proof.
  intros Hc Hm Hne. unfold the_regexp in Hm.
  rewrite sre_match_here_alternation in Hm by done.
  pose proof (alternation_first_alt (the_list (ReplaceByDict.source self)) s) as Ha.
  rewrite Hm in Ha. destruct Ha as (i & item & Hi & Hf & Hlen & Hle & Hg).
  unfold ReplaceByDict.replace. rewrite Hg.
  destruct (replace_from_spec self _ i 0 (group0 m)
              (replicate (length (the_list (ReplaceByDict.source self)) - S i) None) Hc eq_refl)
    as (self' & -> & Hl).
  simpl. rewrite Hi. by exists self', item.
Qed.

Lemma sre_no_match self s :
  the_list (ReplaceByDict.source self) ≠ [] →
  sre_match_here (the_regexp (ReplaceByDict.source self)) s = None →
  first_alt (the_list (ReplaceByDict.source self)) s = None.
Proof.
  intros Hne Hm. unfold the_regexp in Hm.
  rewrite sre_match_here_alternation in Hm by done.
  pose proof (alternation_first_alt (the_list (ReplaceByDict.source self)) s) as Ha.
  by rewrite Hm in Ha.
Qed.

(** The scan of [sub] with [replace] as callback never raises, keeps the
    caches consistent, and rewrites as [Rewritten] says; by induction on
    the length of what is left of the text. *)
Lemma subx_rewritten n : ∀ s adjacent self,
  (String.length s ≤ n)%nat →
  consistent self →
  ∃ self' out,
    subx (the_regexp (ReplaceByDict.source self)) ReplaceByDict.replace
      0 adjacent s self = (self', Return out)
    ∧ later self self'
    ∧ Rewritten (the_list (ReplaceByDict.source self)) adjacent s out.
Proof.
  induction n as [n IHn] using lt_wf_ind. intros s adjacent self Hn Hc.
  assert (∀ s' adj' self', (String.length s' < String.length s)%nat →
            later self self' →
            ∃ self'' out,
              subx (the_regexp (ReplaceByDict.source self)) ReplaceByDict.replace
                0 adj' s' self' = (self'', Return out)
              ∧ later self self''
              ∧ Rewritten (the_list (ReplaceByDict.source self)) adj' s' out) as IH.
  { intros s' adj' self' Hlt Hl. pose proof Hl as (Hsrc & _ & Hc').
    destruct (IHn (String.length s') ltac:(lia) s' adj' self' ltac:(lia) Hc')
      as (self'' & out & Hrun & Hl' & Hrw).
    rewrite Hsrc in Hrun, Hrw. exists self'', out. split; [done|]. split; [|done].
    eapply later_trans; [exact Hl|]. done. }
  clear IHn. rewrite subx_0.
  destruct (decide (the_list (ReplaceByDict.source self) = [])) as [El|Hne].
  - (* the empty pattern *)
    rewrite (sre_match_here_empty _ s El). cbn [String.length group0].
    assert (∀ s', first_alt (the_list (ReplaceByDict.source self)) s' = None)
      as Hf by (by intros; rewrite El).
    assert (ReplaceByDict.replace {| group0 := ""; groups := [] |} self
            = (self, Return "")) as Hrepl by done.
    destruct adjacent; [|unfold bind at 1; rewrite Hrepl];
      (destruct s as [|c s];
       [ exists self, ""; (split; [done|]); (split; [by apply later_refl|]);
         by constructor
       | destruct (IH s false self ltac:(simpl; lia) (later_refl _ Hc))
           as (self' & out & Hrun & Hl & Hrw);
         unfold bind; rewrite Hrun; exists self', (String c out);
         (split; [done|]); (split; [done|]); by constructor ]).
  - destruct (sre_match_here (the_regexp (ReplaceByDict.source self)) s)
      as [m|] eqn:Hm.
    + destruct (replace_spec self s m Hc Hm Hne)
        as (self1 & [key macro] & Hrepl & Hl1 & Hf & Hlen & Hle).
      simpl in Hlen, Hle, Hrepl. rewrite Hlen.
      destruct (String.length key) as [|len] eqn:Hkey.
      * apply string_length_zero in Hkey as ->.
        destruct adjacent.
        -- destruct s as [|c s].
           ++ exists self, "". split; [done|]. split; [by apply later_refl|].
              by eapply rw_ignored_end.
           ++ destruct (IH s false self ltac:(simpl; lia) (later_refl _ Hc))
                as (self' & out & Hrun & Hl & Hrw).
              unfold bind. rewrite Hrun. exists self', (String c out).
              split; [done|]. split; [done|]. by eapply rw_ignored.
        -- unfold bind at 1. rewrite Hrepl. destruct s as [|c s].
           ++ exists self1, macro. split; [done|]. split; [done|].
              by apply rw_empty_end.
           ++ destruct (IH s false self1 ltac:(simpl; lia) Hl1)
                as (self' & out & Hrun & Hl & Hrw).
              unfold bind. rewrite Hrun. exists self', (macro +:+ String c out).
              split; [done|]. split; [done|]. by apply rw_empty.
      * unfold bind at 1. rewrite Hrepl.
        destruct s as [|c s]; simpl in Hle; [lia|].
        rewrite subx_skip by lia.
        destruct (IH (string_drop len s) true self1
                    ltac:(pose proof (string_drop_length len s); simpl; lia) Hl1)
          as (self' & out & Hrun & Hl & Hrw).
        unfold bind. rewrite Hrun. exists self', (macro +:+ out).
        split; [done|]. split; [done|].
        eapply rw_replace; [exact Hf| |].
        -- intros ->. done.
        -- rewrite Hkey. exact Hrw.
    + pose proof (sre_no_match self s Hne Hm) as Hf.
      destruct s as [|c s].
      * exists self, "". split; [done|]. split; [by apply later_refl|].
        by constructor.
      * destruct (IH s false self ltac:(simpl; lia) (later_refl _ Hc))
          as (self' & out & Hrun & Hl & Hrw).
        unfold bind. rewrite Hrun. exists self', (String c out).
        split; [done|]. split; [done|]. by constructor.
Qed.


(** With fewer than 100 keys up to letter case, [text] returns, for every
    text, a rewriting of it. *)
Lemma text_rewritten self value :
  consistent self →
  (length (distinct_keys (ReplaceByDict.source self)) < 100)%nat →
  ∃ self' out,
    ReplaceByDict.text value self = (self', Return out)
    ∧ later self self'
    ∧ Rewritten (the_list (ReplaceByDict.source self)) false value out.
Proof.
  intros Hc Hlen. unfold ReplaceByDict.text, bind, sub.
  destruct (get_regexp_spec self Hc) as (self1 & -> & Hl1).
  rewrite bool_decide_eq_true_2 by done.
  pose proof Hl1 as (Hsrc & _ & Hc1).
  destruct (subx_rewritten _ value false self1 (le_n _) Hc1)
    as (self' & out & Hrun & Hl & Hrw).
  rewrite Hsrc in Hrun, Hrw. exists self', out.
  split; [done|]. split; [|done]. by eapply later_trans.
Qed.

(** With 100 keys or more, [text] raises the [AssertionError] of
    [re.compile], whatever the text. *)
Lemma text_too_many self value :
  consistent self →
  (100 ≤ length (distinct_keys (ReplaceByDict.source self)))%nat →
  ∃ self',
    ReplaceByDict.text value self = (self', Raise AssertionError)
    ∧ later self self'.
Proof.
  intros Hc Hlen. unfold ReplaceByDict.text, bind.
  destruct (get_regexp_spec self Hc) as (self1 & -> & Hl1).
  rewrite bool_decide_eq_false_2 by lia. by exists self1.
Qed.

(** So [text] returns only for a source with fewer than 100 keys. *)
Lemma text_returned self value self' out :
  consistent self →
  ReplaceByDict.text value self = (self', Return out) →
  (length (distinct_keys (ReplaceByDict.source self)) < 100)%nat.
Proof.
  intros Hc Ht.
  destruct (decide (length (distinct_keys (ReplaceByDict.source self)) < 100)%nat)
    as [|Hmany]; [done|].
  destruct (text_too_many self value Hc) as (? & Hraise & _); [lia|].
  congruence.
Qed.

(** The keys of the sorted alternation are the keys of the normalised
    mapping, each once. *)
Lemma the_list_perm src : the_list src ≡ₚ map_to_list (the_dict src).
Proof. apply sort_reverse_perm. Qed.

(** Sorted tuples with pairwise distinct keys have strictly descending
    keys. *)
Lemma keys_descending (l : list (string * string)) :
  StronglySorted tuple_ge l →
  NoDup l.*1 →
  StronglySorted (λ k1 k2, String.compare k1 k2 = Gt) l.*1.
Proof.
  induction 1 as [|a l Hs IH Hall]; intros Hnd; simpl; constructor.
  - apply IH. by apply NoDup_cons in Hnd as [_ ?].
  - apply NoDup_cons in Hnd as [Hnotin _].
    apply Forall_fmap, Forall_forall. intros b Hb. simpl.
    rewrite Forall_forall in Hall. specialize (Hall b Hb).
    unfold tuple_ge, tuple_compare in Hall.
    destruct (String.compare a.1 b.1) eqn:Hab; try done.
    apply String.compare_eq_iff in Hab.
    destruct Hnotin. rewrite Hab. apply list_elem_of_fmap. by exists b.
Qed.

Lemma the_list_descending src :
  StronglySorted (λ k1 k2, String.compare k1 k2 = Gt) (the_list src).*1.
Proof.
  apply keys_descending; [apply sort_reverse_sorted|].
  rewrite the_list_perm. apply NoDup_fst_map_to_list.
Qed.

(** A text in which no key occurs anywhere is rewritten to itself. *)
Lemma Rewritten_inert l adjacent s out :
  (∀ s', s' ∈ suffixes s → first_alt l s' = None) →
  Rewritten l adjacent s out → out = s.
Proof.
  intros Hnone Hrw.
  induction Hrw as [adj Hf|adj c s out Hf Hrw IH|adj s key macro out Hf
                   |macro Hf|c s macro out Hf|macro Hf|c s macro out Hf].
  - done.
  - f_equal. apply IH. intros s' Hs'. apply Hnone. simpl. by right.
  - rewrite Hnone in Hf; [done|]. destruct s; by left.
  - rewrite Hnone in Hf; [done|]. by left.
  - rewrite Hnone in Hf; [done|]. by left.
  - rewrite Hnone in Hf; [done|]. by left.
  - rewrite Hnone in Hf; [done|]. by left.
Qed.

Lemma occurs_here_lower key s : occurs_here (lower key) s = occurs_here key s.
Proof. unfold occurs_here. by rewrite lower_idemp. Qed.

Lemma find_None {A} (f : A → bool) (l : list A) :
  (∀ x, x ∈ l → f x = false) → List.find f l = None.
Proof.
  induction l as [|a l IH]; intros Hall; simpl; [done|].
  rewrite (Hall a) by by left. apply IH. intros x Hx. apply Hall. by right.
Qed.

Lemma first_alt_None src s :
  Forall (λ item, occurs_here item.1 s = false) src →
  first_alt (the_list src) s = None.
Proof.
  intros Hsrc. unfold first_alt.
  apply find_None. intros [key macro] Hin. simpl.
  rewrite the_list_perm in Hin.
  apply elem_of_map_to_list in Hin. rewrite the_dict_lookup in Hin.
  destruct (last _) as [item|] eqn:Hlast; [|done].
  simpl in Hin. injection Hin as <-.
  apply last_Some_elem_of, list_elem_of_filter in Hlast as [Hk Hitem].
  rewrite Forall_forall in Hsrc. specialize (Hsrc _ Hitem).
  by rewrite <- Hk, occurs_here_lower.
Qed.

(** The example of the specification and the one of the docstring. *)
Example text_pages :
  (ReplaceByDict.text "see /page/1 and /item/2"
     (ReplaceByDict.__init__ Examples.pages false)).2
  = Return "see {@ models.Page 1 @} and {@ models.Item 2 @}".
Proof. vm_compute. reflexivity. Qed.

Example text_docstring :
  (ReplaceByDict.text
     "<a href=/page_by_id/2>page</a> and /item_by_barcode/second"
     (ReplaceByDict.__init__
        [("/page_by_id/1", "{@ example.models.Page 1 @}");
         ("/item_by_barcode/second", "{@ example.models.Item 2 @}")]
        false)).2
  = Return "<a href=/page_by_id/2>page</a> and {@ example.models.Item 2 @}".
Proof. vm_compute. reflexivity. Qed.




(** C8, as stated, fails: the key ["page"] occurs, case ignored, in its
    own macro, so a second pass rewrites the macro the first pass put in. *)
Lemma text_not_idempotent :
  (ReplaceByDict.text "page"
     (ReplaceByDict.__init__ Examples.relative false)).2
  = Return "{@ models.Page 1 @}"
  ∧ (ReplaceByDict.text "{@ models.Page 1 @}"
       (ReplaceByDict.text "page"
          (ReplaceByDict.__init__ Examples.relative false)).1).2
    = Return "{@ models.{@ models.Page 1 @} 1 @}".
Proof. split; vm_compute; reflexivity. Qed.

(** C8, amended: when no key of the mapping occurs, case ignored, at any
    position of the output of [text], applying [text] to that output
    returns it unchanged. *)
Theorem text_idempotent_when_inert self value self' out :
  consistent self →
  ReplaceByDict.text value self = (self', Return out) →
  Forall (λ item, Forall (λ s', occurs_here item.1 s' = false) (suffixes out))
    (ReplaceByDict.source self) →
  (ReplaceByDict.text out self').2 = Return out.
Proof.
  intros Hc Ht Hinert.
  pose proof (text_returned self value self' out Hc Ht) as Hlen.
  destruct (text_rewritten self value Hc Hlen)
    as (self1 & out1 & Ht1 & Hl & _).
  rewrite Ht in Ht1. injection Ht1 as <- <-.
  destruct Hl as (Hsrc & _ & Hc').
  rewrite <- Hsrc in Hlen.
  destruct (text_rewritten self' out Hc' Hlen)
    as (self2 & out2 & -> & _ & Hrw).
  simpl. f_equal. apply Rewritten_inert in Hrw; [done|].
  intros s' Hs'. rewrite Hsrc. apply first_alt_None.
  eapply Forall_impl; [exact Hinert|].
  intros item Hitem. rewrite Forall_forall in Hitem. by apply Hitem.
Qed.

Lemma text_idempotent_when_inert_witness :
  (ReplaceByDict.text "see {@ models.Page 1 @} and {@ models.Item 2 @}"
     (ReplaceByDict.text "see /page/1 and /item/2"
        (ReplaceByDict.__init__ Examples.pages false)).1).2
  = Return "see {@ models.Page 1 @} and {@ models.Item 2 @}".
Proof.
  apply (text_idempotent_when_inert
           (ReplaceByDict.__init__ Examples.pages false)
           "see /page/1 and /item/2").
  - apply init_consistent.
  - vm_compute. reflexivity.
  - apply (bool_decide_unpack _). vm_compute. exact I.
Defined.


(** ** The render hook *)

(** Once an object is captured, the wrapper returns [''] whatever the
    context and the original render are, and leaves [local] as it is. *)
Lemma render_skips func context w obj :
  modelurl_object (local w) = Some obj →
  render func context w
  = ({| local := local w; rendered := (rendered w ++ [(context, true)])%list;
        requested := requested w |}, Return "").
Proof.
  intros Hobj. unfold render, bind, get. by rewrite Hobj.
Qed.

Lemma trace_ok_app name cur passes1 mid passes2 final :
  trace_ok name cur passes1 mid →
  trace_ok name mid passes2 final →
  trace_ok name cur (passes1 ++ passes2)%list final.
Proof.
  induction 1; intros Hrest; simpl; [done| |]; constructor; auto.
Qed.

Lemma run_render_skipped {R : Type} body context (k : string → prog R) w obj :
  modelurl_object (local w) = Some obj →
  run (RenderTemplate body context k) w
  = run (k "") {| local := local w;
                  rendered := (rendered w ++ [(context, true)])%list;
                  requested := requested w |}.
Proof.
  intros Hobj. cbn [run]. unfold bind. by rewrite (render_skips _ _ _ _ Hobj).
Qed.

Lemma run_render_pass {R : Type} body context (k : string → prog R) w :
  modelurl_object (local w) = None →
  run (RenderTemplate body context k) w
  = match run body
            {| local :=
                 {| modelurl_object_name := modelurl_object_name (local w);
                    modelurl_object :=
                      modelurl_object_name (local w) ≫= λ n, context !! n |};
               rendered := (rendered w ++ [(context, false)])%list;
               requested := requested w |} with
    | (w', Return out) => run (k out) w'
    | (w', Raise e) => (w', Raise e)
    end.
Proof.
  destruct w as [[name obj] passes requests]. simpl. intros ->.
  cbn [run]. unfold bind at 1. unfold render, bind at 1, get.
  cbn [local modelurl_object modelurl_object_name].
  unfold bind at 1. unfold note_render at 1. unfold bind at 1.
  cbn [local modelurl_object modelurl_object_name rendered requested].
  destruct name as [name|]; simpl; [destruct (context !! name)|]; reflexivity.
Qed.

(** What running a view does to the world: it appends the record of its
    render passes, which follow [trace_ok], and touches neither the
    requested name nor the record of requests. *)
Lemma run_trace {R : Type} (p : prog R) : ∀ w,
  ∃ passes,
    rendered (run p w).1 = (rendered w ++ passes)%list
    ∧ trace_ok (modelurl_object_name (local w)) (modelurl_object (local w))
        passes (modelurl_object (local (run p w).1))
    ∧ modelurl_object_name (local (run p w).1) = modelurl_object_name (local w)
    ∧ requested (run p w).1 = requested w.
Proof.
  induction p as [R r|R e|R body IHbody context k IHk]; intros w.
  - exists []. simpl. rewrite app_nil_r. repeat split. constructor.
  - exists []. simpl. rewrite app_nil_r. repeat split. constructor.
  - destruct (modelurl_object (local w)) as [obj|] eqn:Hobj.
    + rewrite (run_render_skipped _ _ _ _ _ Hobj).
      destruct (IHk "" {| local := local w;
                  rendered := (rendered w ++ [(context, true)])%list;
                  requested := requested w |})
        as (passes & Hr & Ht & Hn & Hq).
      exists ((context, true) :: passes). rewrite Hr, Hn, Hq. simpl.
      rewrite <- app_assoc. repeat split.
      constructor. simpl in Ht. by rewrite Hobj in Ht.
    + rewrite (run_render_pass _ _ _ _ Hobj).
      match goal with |- context [run body ?w0] => set (w2 := w0) end.
      destruct (IHbody w2) as (passes1 & Hr1 & Ht1 & Hn1 & Hq1).
      destruct (run body w2) as [w3 [out|e]] eqn:Hbody; simpl in *.
      * destruct (IHk out w3) as (passes & Hr & Ht & Hn & Hq).
        exists ((context, false) :: passes1 ++ passes)%list.
        rewrite Hr, Hn, Hq, Hr1, Hn1, Hq1. simpl.
        rewrite <- !app_assoc. repeat split.
        constructor. eapply trace_ok_app; [exact Ht1|].
        by rewrite <- Hn1.
      * exists ((context, false) :: passes1).
        rewrite Hr1, Hn1, Hq1. simpl.
        rewrite <- !app_assoc. repeat split.
        by constructor.
Qed.

Lemma trace_ok_captured name cur passes final :
  trace_ok name cur passes final →
  is_Some cur →
  final = cur ∧ Forall (λ pass, pass.2 = true) passes.
Proof.
  induction 1 as [cur|obj context passes final _ IH|context passes final _ _];
    intros Hcur.
  - by split.
  - destruct (IH Hcur) as [-> Hall]. split; [done|]. by constructor.
  - by destruct Hcur.
Qed.

(** The captured object is the one of the first pass whose context holds
    the requested name; the passes up to that one run, the later ones are
    skipped. *)
Lemma trace_ok_first name passes final :
  trace_ok (Some name) None passes final →
  (Forall (λ pass, pass.1 !! name = None ∧ pass.2 = false) passes
   ∧ final = None)
  ∨ (∃ before pass after obj,
       passes = (before ++ pass :: after)%list
       ∧ Forall (λ pass, pass.1 !! name = None ∧ pass.2 = false) before
       ∧ pass.1 !! name = Some obj ∧ pass.2 = false
       ∧ Forall (λ pass, pass.2 = true) after
       ∧ final = Some obj).
Proof.
  remember (Some name) as oname eqn:Hname.
  remember None as cur eqn:Hcur.
  induction 1 as [cur|obj context passes final _ _|context passes final Ht IH].
  - left. by split.
  - discriminate.
  - subst oname. simpl in Ht, IH.
    destruct (context !! name) as [obj|] eqn:Hctx.
    + right. destruct (trace_ok_captured _ _ _ _ Ht) as [-> Hall]; [by eexists|].
      exists [], (context, false), passes, obj. by repeat split.
    + destruct (IH eq_refl) as [[Hall ->]|
        (before & pass & after & obj & -> & Hb & Hp & Hp2 & Ha & ->)].
      * left. split; [|done]. by constructor.
      * right. exists ((context, false) :: before), pass, after, obj.
        repeat split; auto.
Qed.

Section object_from_view.

Variable local_response : option string → option string → prog Response.

Lemma object_from_view_unfold path query object_name w :
  object_from_view local_response path query object_name w
  = let '(w1, response) :=
      run (local_response path query)
        (thread_start w path query object_name) in
    (thread_end w w1,
     match response with
     | Raise e => Raise e
     | Return response =>
         if bool_decide (status_code response = 200%Z) then
           match modelurl_object (local w1) with
           | Some obj => Return obj
           | None => Raise DoesNotFoundException
           end
         else Raise DoesNotFoundException
     end).
Proof.
  unfold object_from_view, threadmethod, object_from_view_func.
  unfold bind at 1. unfold set_modelurl_object_name at 1.
  unfold bind at 1. unfold bind at 1. unfold note_request at 1.
  cbn [local rendered requested modelurl_object fresh_local].
  change {| local := _; rendered := rendered w;
            requested := (requested w ++ [(path, query)])%list |}
    with (thread_start w path query object_name).
  destruct (run (local_response path query) _) as [w1 [response|e]];
    [|done].
  case_bool_decide as Hs.
  - rewrite bool_decide_eq_false_2 by done. done.
  - rewrite bool_decide_eq_true_2 by (by destruct (decide (status_code response = 200%Z))).
    unfold try_except, bind, get.
    by destruct (modelurl_object (local w1)).
Qed.

(** C7: [object_from_view] raises [DoesNotFoundException] when the
    status of the response is not 200, and when the status is 200 but the
    call has left no object in the slot of its thread; otherwise it
    returns the captured object (an exception of the collaborator itself
    passes through).  The collaborator is called exactly once, with the
    given path and query. *)
Theorem object_from_view_outcome path query object_name w :
  (object_from_view local_response path query object_name w).2
  = match run (local_response path query)
            (thread_start w path query object_name) with
    | (_, Raise e) => Raise e
    | (w1, Return response) =>
        if bool_decide (status_code response = 200%Z) then
          match modelurl_object (local w1) with
          | Some obj => Return obj
          | None => Raise DoesNotFoundException
          end
        else Raise DoesNotFoundException
    end
  ∧ requested (object_from_view local_response path query object_name w).1
    = (requested w ++ [(path, query)])%list.
Proof.
  rewrite object_from_view_unfold.
  pose proof (run_trace (local_response path query)
                (thread_start w path query object_name))
    as (passes & _ & _ & _ & Hq).
  destruct (run (local_response path query) _) as [w1 response].
  split; [done|]. simpl in *. by rewrite Hq.
Qed.

(** C10: within one call of [object_from_view] the captured object is
    written once.  A render pass that finds an object captured returns
    [''] whatever its context and template, and leaves the slot as it is.
    So the render passes that the call adds to the record are: passes
    that run and whose context lacks the requested name; then, if any,
    the first pass whose context holds the name, which runs and captures;
    then passes that are all skipped.  Whatever object the call returns
    is the one of that first capture, and without a capture the call
    returns no object. *)
Theorem capture_write_once path query object_name w :
  (∀ func context w' obj,
     modelurl_object (local w') = Some obj →
     render func context w'
     = ({| local := local w';
           rendered := (rendered w' ++ [(context, true)])%list;
           requested := requested w' |}, Return EmptyString))
  ∧ (∃ passes,
       rendered (object_from_view local_response path query object_name w).1
       = (rendered w ++ passes)%list
       ∧ ((Forall (λ pass, pass.1 !! object_name = None ∧ pass.2 = false)
             passes
           ∧ ∀ obj,
               (object_from_view local_response path query object_name w).2
               ≠ Return obj)
          ∨ (∃ before pass after obj,
               passes = (before ++ pass :: after)%list
               ∧ Forall (λ pass, pass.1 !! object_name = None
                                 ∧ pass.2 = false) before
               ∧ pass.1 !! object_name = Some obj ∧ pass.2 = false
               ∧ Forall (λ pass, pass.2 = true) after
               ∧ ∀ obj',
                   (object_from_view local_response path query
                      object_name w).2 = Return obj' →
                   obj' = obj))).
Proof.
  split.
  - intros func context w' obj Hobj. by apply (render_skips _ _ _ obj).
  - rewrite object_from_view_unfold.
    destruct (run_trace (local_response path query)
                (thread_start w path query object_name))
      as (passes & Hr & Ht & _ & _).
    destruct (run (local_response path query) _) as [w1 response].
    simpl in Hr, Ht. exists passes. split; [exact Hr|].
    apply trace_ok_first in Ht
      as [[Hall Hnone]|(before & pass & after & obj & -> & Hb & Hp & Hp2
                        & Ha & Hsome)].
    + left. split; [done|]. intros obj. simpl. rewrite Hnone.
      destruct response as [response|e]; [|done].
      by destruct (bool_decide _).
    + right. exists before, pass, after, obj.
      split; [done|]. split; [done|]. split; [done|]. split; [done|].
      split; [done|]. intros obj'. simpl. rewrite Hsome.
      destruct response as [response|e]; [|done].
      destruct (bool_decide _); [|done]. by intros [= ->].
Qed.

End object_from_view.



(** ** ReplaceByView.url *)

Lemma foreign_part_nocase x container :
  x ≠ "" → ¬ in_nocase x container →
  ReplaceByView.foreign_part (Some x) container = true.
Proof.
  intros Hx Hnot. unfold ReplaceByView.foreign_part.
  apply andb_true_intro. split.
  - apply negb_true_iff. by apply String.eqb_neq.
  - apply negb_true_iff, bool_decide_eq_false_2. intros Hin.
    apply Hnot. exists (lower x). split; [done|]. apply lower_idemp.
Qed.

Section view.

Context {Callback : Type} `{Countable Callback}.
Variable MACRO_RE_match : string → bool.
Variable urlsplit : string →
  option string * option string * option string * option string
  * option string.
Variable urljoin : option string → option string → option string →
  option string → option string → string.
Variable resolve : string → result Callback.
Variable local_response : option string → option string → prog Response.

Local Abbreviation url_func :=
  (ReplaceByView.url_func MACRO_RE_match urlsplit urljoin resolve
     local_response).
Local Abbreviation url :=
  (ReplaceByView.url MACRO_RE_match urlsplit urljoin resolve local_response).
Local Abbreviation validated := (passes_validation MACRO_RE_match urlsplit).

(** What [url] does with a value that passed the three checks. *)
Lemma url_func_validated self value w :
  validated self value = true →
  url_func self value w
  = match resolve value with
    | Raise e => (w, Raise e)
    | Return callback =>
        match ReplaceByView.views self !! callback with
        | None => (w, Raise DoesNotFoundException)
        | Some object_name =>
            let '(_, _, path, query, _) := urlsplit value in
            (obj <- object_from_view local_response path
                      (if ReplaceByView.send_query self then query
                       else Some "")
                      object_name ;;
             raise (NameError "generate_macro")) w
        end
    end.
Proof.
  unfold passes_validation, ReplaceByView.url_func.
  destruct (urlsplit value) as [[[[scheme authority] path] query] fragment].
  intros Hv. repeat (apply andb_prop in Hv as [Hv ?]).
  apply negb_true_iff in Hv. rewrite Hv.
  replace (negb (truthy scheme) && negb (truthy authority)
           && negb (truthy path)) with false
    by (destruct (truthy scheme), (truthy authority), (truthy path); done).
  replace (ReplaceByView.foreign_part scheme ReplaceByView.SERVER_SCHEMES
           || ReplaceByView.foreign_part authority (ReplaceByView.sites self))
    with false
    by (destruct (ReplaceByView.foreign_part scheme _),
                 (ReplaceByView.foreign_part authority _); done).
  destruct (resolve value) as [callback|e]; [|done].
  unfold bind at 1, try_except.
  destruct (ReplaceByView.views self !! callback) as [object_name|]; [|done].
  cbn [ret raise]. unfold bind.
  destruct (object_from_view _ _ _ _ w) as [w' [obj|e]]; done.
Qed.

(** [url] never returns a value of its own making: in every case the body
    ends with an exception. *)
Lemma url_func_raises self value w :
  ∃ e, (url_func self value w).2 = Raise e.
Proof.
  unfold ReplaceByView.url_func.
  destruct (MACRO_RE_match value); [by eexists|].
  destruct (urlsplit value) as [[[[scheme authority] path] query] fragment].
  destruct (_ && _); [by eexists|].
  destruct (_ || _); [by eexists|].
  destruct (resolve value) as [callback|e]; [|by eexists].
  unfold bind at 1, try_except.
  destruct (ReplaceByView.views self !! callback) as [object_name|];
    [|by eexists].
  cbn [ret raise]. unfold bind.
  destruct (object_from_view _ _ _ _ w) as [w' [obj|e]]; by eexists.
Qed.

Lemma url_raises_ReplaceException self value w e :
  url_func self value w = (w, Raise e) →
  is_ReplaceException e = true →
  url self value w
  = (w, if ReplaceByView.silent self then Return value else Raise e).
Proof.
  intros Hf He. unfold ReplaceByView.url.
  by rewrite (silentmethod_replace _ _ _ _ _ _ Hf He).
Qed.

(** C5: [url] checks its value in this order: a value that matches the
    macro pattern fails with [AlreadyMacroException]; otherwise a value
    whose scheme, authority and path are all empty fails with
    [NoPathException]; otherwise a value with a scheme that is not a
    server scheme, or with an authority that is not one of the sites, both
    up to letter case, fails with [ForeignException].  (The failure is
    raised when the replacer is not silent; a silent one returns the
    value.) *)
Theorem validation_order self value w scheme authority path query fragment :
  urlsplit value = (scheme, authority, path, query, fragment) →
  (MACRO_RE_match value = true →
   url self value w
   = (w, if ReplaceByView.silent self then Return value
         else Raise AlreadyMacroException))
  ∧ (MACRO_RE_match value = false →
     truthy scheme = false → truthy authority = false →
     truthy path = false →
     url self value w
     = (w, if ReplaceByView.silent self then Return value
           else Raise NoPathException))
  ∧ (MACRO_RE_match value = false →
     truthy scheme || truthy authority || truthy path = true →
     (∃ s, scheme = Some s ∧ s ≠ ""
           ∧ ¬ in_nocase s ReplaceByView.SERVER_SCHEMES)
     ∨ (∃ a, authority = Some a ∧ a ≠ ""
             ∧ ¬ in_nocase a (ReplaceByView.sites self)) →
     url self value w
     = (w, if ReplaceByView.silent self then Return value
           else Raise ForeignException)).
Proof.
  intros Hsplit. split; [|split].
  - intros Hm. apply url_raises_ReplaceException; [|done].
    unfold ReplaceByView.url_func. by rewrite Hm.
  - intros Hm Hs Ha Hp. apply url_raises_ReplaceException; [|done].
    unfold ReplaceByView.url_func. by rewrite Hm, Hsplit, Hs, Ha, Hp.
  - intros Hm Hsome Hforeign. apply url_raises_ReplaceException; [|done].
    unfold ReplaceByView.url_func. rewrite Hm, Hsplit.
    replace (negb (truthy scheme) && negb (truthy authority)
             && negb (truthy path)) with false
      by (destruct (truthy scheme), (truthy authority), (truthy path); done).
    destruct Hforeign as [(s & -> & Hs & Hnot)|(a & -> & Ha & Hnot)].
    + by rewrite (foreign_part_nocase _ _ Hs Hnot).
    + rewrite (foreign_part_nocase _ _ Ha Hnot). by rewrite orb_true_r.
Qed.

(** C3: a [ReplaceException] raised by the body of either [url] is caught
    by a silent replacer, which returns the value it was given, and
    reaches the caller of a replacer that is not silent. *)
Theorem silent_policy e :
  is_ReplaceException e = true →
  (∀ self value,
     (ReplaceByDict.url_func value self).2 = Raise e →
     (ReplaceByDict.url value self).2
     = if ReplaceByDict.silent self then Return value else Raise e)
  ∧ (∀ self value w,
       (url_func self value w).2 = Raise e →
       (url self value w).2
       = if ReplaceByView.silent self then Return value else Raise e).
Proof.
  intros He. split.
  - intros self value Hf. unfold ReplaceByDict.url.
    pose proof (url_func_silent self value) as Hsilent.
    destruct (ReplaceByDict.url_func value self) as [self' r] eqn:Hrun.
    simpl in Hf, Hsilent. subst r.
    rewrite (silentmethod_replace _ _ _ _ _ _ Hrun He). simpl.
    by rewrite Hsilent.
  - intros self value w Hf. unfold ReplaceByView.url.
    destruct (url_func self value w) as [w' r] eqn:Hrun.
    simpl in Hf. subst r.
    by rewrite (silentmethod_replace _ _ _ _ _ _ Hrun He).
Qed.

(** C9: an exception that is not a [ReplaceException] reaches the caller
    of either [url] whatever the silent flag, so also with [silent=True]:
    in general, and in particular an exception of the resolver, one of
    the view or of the rendering run by [local_response], and the
    [NameError] of the step that encodes the macro. *)
Theorem silent_only_ReplaceException e :
  is_ReplaceException e = false →
  (∀ self value,
     (ReplaceByDict.url_func value self).2 = Raise e →
     (ReplaceByDict.url value self).2 = Raise e)
  ∧ (∀ self value w,
       (url_func self value w).2 = Raise e →
       (url self value w).2 = Raise e)
  ∧ (∀ self value w,
       validated self value = true →
       resolve value = Raise e →
       (url self value w).2 = Raise e)
  ∧ (∀ self value w callback object_name,
       validated self value = true →
       resolve value = Return callback →
       ReplaceByView.views self !! callback = Some object_name →
       (let '(_, _, path, query, _) := urlsplit value in
        (run (local_response path
                (if ReplaceByView.send_query self then query else Some ""))
           (thread_start w path
              (if ReplaceByView.send_query self then query else Some "")
              object_name)).2 = Raise e) →
       (url self value w).2 = Raise e)
  ∧ (∀ self value w callback object_name obj,
       validated self value = true →
       resolve value = Return callback →
       ReplaceByView.views self !! callback = Some object_name →
       (let '(_, _, path, query, _) := urlsplit value in
        (object_from_view local_response path
           (if ReplaceByView.send_query self then query else Some "")
           object_name w).2 = Return obj) →
       (url self value w).2 = Raise (NameError "generate_macro")).
Proof.
  intros He.
  assert (∀ self value w e',
            is_ReplaceException e' = false →
            (url_func self value w).2 = Raise e' →
            (url self value w).2 = Raise e') as Hview.
  { intros self value w e' He' Hf. unfold ReplaceByView.url.
    destruct (url_func self value w) as [w' r] eqn:Hrun.
    simpl in Hf. subst r.
    by rewrite (silentmethod_other _ _ _ _ _ _ Hrun He'). }
  split; [|split; [|split; [|split]]].
  - intros self value Hf. unfold ReplaceByDict.url.
    destruct (ReplaceByDict.url_func value self) as [self' r] eqn:Hrun.
    simpl in Hf. subst r.
    by rewrite (silentmethod_other _ _ _ _ _ _ Hrun He).
  - intros self value w. by apply Hview.
  - intros self value w Hv Hr. apply Hview; [done|].
    by rewrite (url_func_validated _ _ _ Hv), Hr.
  - intros self value w callback object_name Hv Hr Hviews Hrun.
    apply Hview; [done|].
    rewrite (url_func_validated _ _ _ Hv), Hr, Hviews.
    destruct (urlsplit value) as [[[[scheme authority] path] query] fragment].
    unfold bind. rewrite object_from_view_unfold.
    destruct (run _ _) as [w1 r]. simpl in Hrun. by subst r.
  - intros self value w callback object_name obj Hv Hr Hviews Hobj.
    apply Hview; [done|].
    rewrite (url_func_validated _ _ _ Hv), Hr, Hviews.
    destruct (urlsplit value) as [[[[scheme authority] path] query] fragment].
    unfold bind.
    destruct (object_from_view _ _ _ _ w) as [w' r]. simpl in Hobj.
    by subst r.
Qed.

End view.


(** ** The replacers on the sample data *)

Local Abbreviation sample_url :=
  (ReplaceByView.url Examples.MACRO_RE_match Examples.urlsplit
     Examples.urljoin Examples.resolve Examples.local_response).

Lemma not_in_nocase_singleton x y : lower y ≠ lower x → ¬ in_nocase x [y].
Proof.
  intros Hne (z & Hz & Hl). apply list_elem_of_singleton in Hz as ->. done.
Qed.

Lemma validation_order_witness :
  sample_url (Examples.replacer false) "{@ models.Page 1 @}" Examples.idle
  = (Examples.idle, Raise AlreadyMacroException)
  ∧ sample_url (Examples.replacer false) "#top" Examples.idle
    = (Examples.idle, Raise NoPathException)
  ∧ sample_url (Examples.replacer false) "mailto:a@b.com" Examples.idle
    = (Examples.idle, Raise ForeignException)
  ∧ sample_url (Examples.replacer false) "http://evil.example/x" Examples.idle
    = (Examples.idle, Raise ForeignException).
Proof.
  split; [|split; [|split]].
  - apply (proj1 (validation_order Examples.MACRO_RE_match Examples.urlsplit
                    Examples.urljoin Examples.resolve Examples.local_response
                    (Examples.replacer false) "{@ models.Page 1 @}"
                    Examples.idle _ _ _ _ _ eq_refl)).
    reflexivity.
  - apply (proj1 (proj2 (validation_order Examples.MACRO_RE_match
                    Examples.urlsplit Examples.urljoin Examples.resolve
                    Examples.local_response (Examples.replacer false) "#top"
                    Examples.idle _ _ _ _ _ eq_refl))); reflexivity.
  - apply (proj2 (proj2 (validation_order Examples.MACRO_RE_match
                    Examples.urlsplit Examples.urljoin Examples.resolve
                    Examples.local_response (Examples.replacer false)
                    "mailto:a@b.com" Examples.idle _ _ _ _ _ eq_refl)));
      [reflexivity|reflexivity|].
    left. exists "mailto". split; [reflexivity|]. split; [discriminate|].
    apply not_in_nocase_singleton. discriminate.
  - apply (proj2 (proj2 (validation_order Examples.MACRO_RE_match
                    Examples.urlsplit Examples.urljoin Examples.resolve
                    Examples.local_response (Examples.replacer false)
                    "http://evil.example/x" Examples.idle _ _ _ _ _ eq_refl)));
      [reflexivity|reflexivity|].
    right. exists "evil.example". split; [reflexivity|]. split; [discriminate|].
    apply not_in_nocase_singleton. discriminate.
Defined.

(** C6: for a url the resolver has no route for, the resolver of Django
    raises [Resolver404]; [url] lets it through, also when the replacer is
    silent, where the claim has [DoesNotFoundException] (which a silent
    replacer turns into the value, as it does when the callback is not in
    [views]).  And what [url] hands to the resolver is the whole value,
    not its path component: a value with scheme and authority does not
    resolve although its path does. *)
Theorem resolver_error_passes_through :
  (passes_validation Examples.MACRO_RE_match Examples.urlsplit
     (Examples.replacer false) "/nothing" = true
   ∧ Examples.resolve "/nothing" = Raise Resolver404
   ∧ (sample_url (Examples.replacer false) "/nothing" Examples.idle).2
     = Raise Resolver404
   ∧ (sample_url (Examples.replacer false) "/nothing" Examples.idle).2
     ≠ Raise DoesNotFoundException
   ∧ (sample_url (Examples.replacer true) "/nothing" Examples.idle).2
     = Raise Resolver404)
  ∧ (Examples.resolve "/about" = Return "views.about"
     ∧ (sample_url (Examples.replacer false) "/about" Examples.idle).2
       = Raise DoesNotFoundException
     ∧ (sample_url (Examples.replacer true) "/about" Examples.idle).2
       = Return "/about")
  ∧ (passes_validation Examples.MACRO_RE_match Examples.urlsplit
       (Examples.replacer false) "http://good.example/objects/1" = true
     ∧ Examples.urlsplit "http://good.example/objects/1"
       = (Some "http", Some "good.example", Some "/objects/1", None, None)
     ∧ Examples.resolve "/objects/1" = Return "views.thing"
     ∧ (sample_url (Examples.replacer false) "http://good.example/objects/1"
          Examples.idle).2
       = Raise Resolver404).
Proof. repeat split; try (vm_compute; reflexivity). by vm_compute. Qed.

Lemma silent_policy_witness :
  (ReplaceByDict.url "/page/3"
     (ReplaceByDict.__init__ Examples.pages true)).2 = Return "/page/3"
  ∧ (ReplaceByDict.url "/page/3"
       (ReplaceByDict.__init__ Examples.pages false)).2
    = Raise DoesNotFoundException
  ∧ (sample_url (Examples.replacer true) "{@ models.Page 1 @}"
       Examples.idle).2 = Return "{@ models.Page 1 @}"
  ∧ (sample_url (Examples.replacer false) "{@ models.Page 1 @}"
       Examples.idle).2 = Raise AlreadyMacroException.
Proof.
  split; [|split; [|split]].
  - apply (proj1 (silent_policy Examples.MACRO_RE_match Examples.urlsplit
                    Examples.urljoin Examples.resolve Examples.local_response
                    DoesNotFoundException eq_refl)
             (ReplaceByDict.__init__ Examples.pages true) "/page/3").
    reflexivity.
  - apply (proj1 (silent_policy Examples.MACRO_RE_match Examples.urlsplit
                    Examples.urljoin Examples.resolve Examples.local_response
                    DoesNotFoundException eq_refl)
             (ReplaceByDict.__init__ Examples.pages false) "/page/3").
    reflexivity.
  - apply (proj2 (silent_policy Examples.MACRO_RE_match Examples.urlsplit
                    Examples.urljoin Examples.resolve Examples.local_response
                    AlreadyMacroException eq_refl)
             (Examples.replacer true) "{@ models.Page 1 @}" Examples.idle).
    reflexivity.
  - apply (proj2 (silent_policy Examples.MACRO_RE_match Examples.urlsplit
                    Examples.urljoin Examples.resolve Examples.local_response
                    AlreadyMacroException eq_refl)
             (Examples.replacer false) "{@ models.Page 1 @}" Examples.idle).
    reflexivity.
Defined.

Lemma silent_only_ReplaceException_witness :
  (sample_url (Examples.replacer true) "/nothing" Examples.idle).2
  = Raise Resolver404
  ∧ (sample_url (Examples.replacer true) "/objects/1" Examples.idle).2
    = Raise (NameError "generate_macro").
Proof.
  split.
  - apply (proj1 (proj2 (proj2
             (silent_only_ReplaceException Examples.MACRO_RE_match
                Examples.urlsplit Examples.urljoin Examples.resolve
                Examples.local_response Resolver404 eq_refl)))
             (Examples.replacer true) "/nothing" Examples.idle);
      reflexivity.
  - apply (proj2 (proj2 (proj2 (proj2
             (silent_only_ReplaceException Examples.MACRO_RE_match
                Examples.urlsplit Examples.urljoin Examples.resolve
                Examples.local_response Resolver404 eq_refl))))
             (Examples.replacer true) "/objects/1" Examples.idle
             "views.thing" "obj" Examples.Thing);
      reflexivity.
Defined.

(** C2: on the happy path of the specification the view is found, run,
    and the object [Thing] captured, but [url] then raises [NameError]
    where the claim has it return the macro of the object, which [macro]
    would give. *)
Theorem happy_path_raises_NameError :
  (object_from_view Examples.local_response (Some "/objects/1") (Some "")
     "obj" Examples.idle).2 = Return Examples.Thing
  ∧ macro Examples.Thing = "{@ pkg.Thing 1 @}"
  ∧ (sample_url (Examples.replacer false) "/objects/1" Examples.idle).2
    = Raise (NameError "generate_macro")
  ∧ (sample_url (Examples.replacer true) "/objects/1" Examples.idle).2
    = Raise (NameError "generate_macro").
Proof. repeat split; vm_compute; reflexivity. Qed.

(** The render passes of the sample view: the first runs and captures
    [Thing]; the second is skipped, so its object is never seen. *)
Example sample_render_passes :
  rendered (object_from_view Examples.local_response (Some "/objects/1")
              (Some "") "obj" Examples.idle).1
  = [({["obj" := Examples.Thing]}, false);
     ({["obj" := {| __class__ := __class__ Examples.Thing;
                    pk := 2; id := 2 |}]}, true)].
Proof. vm_compute. reflexivity. Qed.

Example sample_not_found :
  (object_from_view Examples.local_response (Some "/missing") (Some "")
     "obj" Examples.idle).2 = Raise DoesNotFoundException.
Proof. vm_compute. reflexivity. Qed.

Lemma capture_write_once_witness :
  ∃ passes,
    rendered (object_from_view Examples.local_response (Some "/objects/1")
                (Some "") "obj" Examples.idle).1
    = (rendered Examples.idle ++ passes)%list
    ∧ ((Forall (λ pass, pass.1 !! "obj" = None ∧ pass.2 = false) passes
        ∧ ∀ obj,
            (object_from_view Examples.local_response (Some "/objects/1")
               (Some "") "obj" Examples.idle).2 ≠ Return obj)
       ∨ (∃ before pass after obj,
            passes = (before ++ pass :: after)%list
            ∧ Forall (λ pass, pass.1 !! "obj" = None ∧ pass.2 = false) before
            ∧ pass.1 !! "obj" = Some obj ∧ pass.2 = false
            ∧ Forall (λ pass, pass.2 = true) after
            ∧ ∀ obj',
                (object_from_view Examples.local_response (Some "/objects/1")
                   (Some "") "obj" Examples.idle).2 = Return obj' →
                obj' = obj)).
Proof.
  exact (proj2 (capture_write_once Examples.local_response
                  (Some "/objects/1") (Some "") "obj" Examples.idle)).
Defined.


(** * Further properties *)

(** ** ReplaceByDict: the longest key wins *)

Lemma lower_length s : String.length (lower s) = String.length s.
Proof. induction s as [|c s IH]; simpl; by f_equal. Qed.

(** A string is smaller than any string it is a proper prefix of. *)
Lemma prefix_compare a b t :
  String.prefix a t = true → String.prefix b t = true →
  (String.length a < String.length b)%nat →
  String.compare a b = Lt.
Proof.
  revert a b. induction t as [|c t IH]; intros [|x a] [|y b]; simpl;
    try done; try lia.
  destruct (ascii_dec x c) as [->|]; [|done].
  destruct (ascii_dec y c) as [->|]; [|done].
  intros Ha Hb Hlen. rewrite ascii_compare_refl. apply IH; auto with lia.
Qed.

Lemma prefix_full a t :
  String.prefix a t = true → (String.length t ≤ String.length a)%nat → a = t.
Proof.
  revert a. induction t as [|c t IH]; intros [|x a]; simpl; try done; try lia.
  destruct (ascii_dec x c) as [->|]; [|done].
  intros Ha Hlen. f_equal. apply IH; auto with lia.
Qed.

Lemma prefix_refl t : String.prefix t t = true.
Proof.
  induction t as [|c t IH]; simpl; [done|]. by destruct (ascii_dec c c).
Qed.

(** The keys of the normalised mapping are lower-case, and each is the
    lower-casing of a key of the source. *)
Lemma the_dict_key src key macro :
  the_dict src !! key = Some macro →
  lower key = key ∧ ∃ key0, (key0, macro) ∈ src ∧ lower key0 = key.
Proof.
  rewrite the_dict_lookup. destruct (last _) as [[key0 macro0]|] eqn:Hlast;
    [|done].
  intros [= <-]. apply last_Some_elem_of, list_elem_of_filter in Hlast
    as [Hk Hin]. simpl in *. subst key. split; [apply lower_idemp|].
  by exists key0.
Qed.

Lemma the_list_elem src key macro :
  (key, macro) ∈ the_list src ↔ the_dict src !! key = Some macro.
Proof. rewrite the_list_perm. apply elem_of_map_to_list. Qed.

(** What [List.find] returns is the first element that passes. *)
Lemma find_first {A} (f : A → bool) (l : list A) x :
  List.find f l = Some x →
  ∃ l1 l2, l = (l1 ++ x :: l2)%list ∧ f x = true
           ∧ Forall (λ y, f y = false) l1.
Proof.
  induction l as [|a l IH]; simpl; [done|].
  destruct (f a) eqn:Hfa.
  - intros [= <-]. by exists [], l.
  - intros Hfind. destruct (IH Hfind) as (l1 & l2 & -> & Hx & Hall).
    exists (a :: l1), l2. repeat split; auto.
Qed.

Lemma find_is_Some {A} (f : A → bool) (l : list A) x :
  x ∈ l → f x = true → is_Some (List.find f l).
Proof.
  induction 1 as [x l|x a l Hin IH]; simpl; intros Hx.
  - rewrite Hx. by eexists.
  - destruct (f a); [by eexists|]. by apply IH.
Qed.

(** Among the keys that occur at the start of [s], the earliest in the
    sorted list is the longest. *)
Lemma first_alt_longest src s key macro :
  first_alt (the_list src) s = Some (key, macro) →
  (key, macro) ∈ the_list src
  ∧ occurs_here key s = true
  ∧ ∀ key' macro', (key', macro') ∈ the_list src →
                   occurs_here key' s = true →
                   (String.length key' ≤ String.length key)%nat.
Proof.
  intros Hfind. unfold first_alt in Hfind.
  apply find_first in Hfind as (l1 & l2 & Hl & Hocc & Hbefore).
  simpl in Hocc.
  assert ((key, macro) ∈ the_list src) as Hin.
  { rewrite Hl. apply elem_of_app. right. by left. }
  split; [done|]. split; [done|].
  intros key' macro' Hin' Hocc'.
  destruct (decide ((String.length key' ≤ String.length key)%nat))
    as [|Hlonger]; [done|]. exfalso.
  apply the_list_elem, the_dict_key in Hin as [Hlow _].
  pose proof Hin' as Hin''.
  apply the_list_elem, the_dict_key in Hin'' as [Hlow' _].
  assert (String.compare key key' = Lt) as Hlt.
  { unfold occurs_here in Hocc, Hocc'. rewrite Hlow in Hocc.
    rewrite Hlow' in Hocc'. eapply prefix_compare; eauto. lia. }
  pose proof (the_list_descending src) as Hsorted.
  rewrite Hl in Hin', Hsorted.
  rewrite fmap_app, fmap_cons in Hsorted. simpl in Hsorted.
  apply elem_of_app in Hin' as [Hin'|Hin'].
  - rewrite Forall_forall in Hbefore. specialize (Hbefore _ Hin').
    simpl in Hbefore. congruence.
  - apply elem_of_cons in Hin' as [[= -> ->]|Hin']; [lia|].
    apply StronglySorted_app_1_r, StronglySorted_inv in Hsorted
      as [_ Hall].
    rewrite Forall_forall in Hall.
    assert (key' ∈ l2.*1) as Hk'.
    { apply list_elem_of_fmap. by exists (key', macro'). }
    specialize (Hall _ Hk'). simpl in Hall. congruence.
Qed.

(** X1: where the pattern of [get_regexp] matches, the matched text is
    as long as the longest key of [get_dict] that occurs at that position,
    letter case ignored: the descending order of [get_list] puts every key
    before the keys that are its proper prefixes. *)
Theorem longest_key_wins self s r d m :
  consistent self →
  (ReplaceByDict.get_regexp self).2 = Return r →
  (ReplaceByDict.get_dict self).2 = Return d →
  sre_match_here r s = Some m →
  ∀ key macro,
    d !! key = Some macro →
    is_Some (literal_match true key s) →
    (String.length key ≤ String.length (group0 m))%nat.
Proof.
  intros Hc Hr Hd Hm key macro Hkey [text Hlit].
  destruct (get_regexp_spec self Hc) as (self1 & Hr' & _).
  rewrite Hr' in Hr. simpl in Hr.
  destruct (bool_decide _) in Hr; [|done]. injection Hr as <-.
  destruct (get_dict_spec self Hc) as (self2 & Hd' & _).
  rewrite Hd' in Hd. injection Hd as <-.
  apply the_list_elem in Hkey.
  assert (the_list (ReplaceByDict.source self) ≠ []) as Hne.
  { intros El. rewrite El in Hkey. by apply elem_of_nil in Hkey. }
  unfold the_regexp in Hm. rewrite sre_match_here_alternation in Hm by done.
  pose proof (alternation_first_alt (the_list (ReplaceByDict.source self)) s)
    as Ha.
  rewrite Hm in Ha.
  destruct Ha as (i & [key1 macro1] & _ & Hfirst & Hlen & _ & _).
  rewrite Hlen. simpl.
  apply first_alt_longest in Hfirst as (_ & _ & Hlongest).
  apply (Hlongest key macro Hkey).
  by apply literal_match_Some in Hlit as [? _].
Qed.

Lemma longest_key_wins_witness :
  (String.length "/a"
   ≤ String.length
       (group0 {| group0 := "/ab"; groups := [Some "/ab"; None] |}))%nat.
Proof.
  apply (longest_key_wins
           (ReplaceByDict.__init__ [("/a", "A"); ("/ab", "AB")] false)
           "/abc" (the_regexp [("/a", "A"); ("/ab", "AB")])
           (the_dict [("/a", "A"); ("/ab", "AB")]) _
           (init_consistent _ _) eq_refl eq_refl eq_refl "/a" "A").
  - reflexivity.
  - by eexists.
Defined.

(** ** ReplaceByDict: what [text] and [url] do to the object *)

Lemma first_alt_empty l key macro :
  first_alt l "" = Some (key, macro) → key = "".
Proof.
  intros Hf. apply find_first in Hf as (_ & _ & _ & Hocc & _).
  unfold occurs_here in Hocc. simpl in Hocc.
  destruct key; [done|]. simpl in Hocc. done.
Qed.

(** The rewriting of a text is determined by the alternation. *)
Lemma Rewritten_functional l adjacent s out1 out2 :
  Rewritten l adjacent s out1 → Rewritten l adjacent s out2 → out1 = out2.
Proof.
  intros H1. revert out2.
  induction H1 as [adj Hf|adj c s out Hf Hrw IH|adj s key macro out Hf Hk Hrw IH
                  |macro Hf|c s macro out Hf Hrw IH|macro Hf
                  |c s macro out Hf Hrw IH];
    intros out2 H2; inversion H2; subst; try congruence;
    try (f_equal; by apply IH).
  - assert (key0 = key ∧ macro0 = macro) as [-> ->] by (split; congruence).
    f_equal. by apply IH.
  - assert (macro0 = macro) as -> by congruence. f_equal. f_equal. by apply IH.
Qed.

Lemma string_drop_all s : string_drop (String.length s) s = "".
Proof. induction s as [|c s IH]; simpl; done. Qed.

Lemma string_app_empty s : s +:+ "" = s.
Proof.
  induction s as [|c s IH]; [reflexivity|].
  change (String c (s +:+ "") = String c s). by rewrite IH.
Qed.

Lemma Rewritten_end l out : Rewritten l true "" out → out = "".
Proof.
  inversion 1 as [| |adj s key macro out' Hf Hk Hrw| | | |]; subst; try done.
  by apply first_alt_empty in Hf.
Qed.

(** The text that is, up to letter case, a key of the mapping is
    rewritten to the macro of that key. *)
Lemma Rewritten_key src value macro out :
  the_dict src !! lower value = Some macro →
  Rewritten (the_list src) false value out →
  out = macro.
Proof.
  intros Hkey Hrw.
  assert (first_alt (the_list src) value = Some (lower value, macro)) as Hf.
  { assert ((lower value, macro) ∈ the_list src) as Hin
      by by apply the_list_elem.
    assert (occurs_here (lower value) value = true) as Hocc.
    { unfold occurs_here. rewrite lower_idemp. apply prefix_refl. }
    destruct (find_is_Some (λ item, occurs_here item.1 value) _ _ Hin Hocc)
      as [[key1 macro1] Hfind].
    change (first_alt (the_list src) value = Some (key1, macro1)) in Hfind.
    rewrite Hfind. pose proof Hfind as Hfind'.
    apply first_alt_longest in Hfind' as (Hin1 & Hocc1 & Hlongest).
    specialize (Hlongest _ _ Hin Hocc). rewrite lower_length in Hlongest.
    apply the_list_elem in Hin1. pose proof Hin1 as Hlow1.
    apply the_dict_key in Hlow1 as [Hlow1 _].
    unfold occurs_here in Hocc1. rewrite Hlow1 in Hocc1.
    assert (key1 = lower value) as ->.
    { apply prefix_full; [done|]. by rewrite lower_length. }
    congruence. }
  inversion Hrw as [adj Hf'|adj c s out' Hf' Hrw'
                   |adj s key macro' out' Hf' Hk Hrw'
                   |macro' Hf'|c s macro' out' Hf' Hrw'| |]; subst;
    try congruence.
  - rewrite Hf in Hf'. injection Hf' as <- <-.
    rewrite lower_length, string_drop_all in Hrw'.
    apply Rewritten_end in Hrw' as ->. apply string_app_empty.
  - rewrite Hf in Hf'. discriminate.
Qed.

(** The number of keys decides whether [text] returns. *)
Lemma text_cases self value :
  consistent self →
  ∃ self',
    later self self'
    ∧ (((length (distinct_keys (ReplaceByDict.source self)) < 100)%nat
        ∧ ∃ out,
            ReplaceByDict.text value self = (self', Return out)
            ∧ Rewritten (the_list (ReplaceByDict.source self)) false value out)
       ∨ ((100 ≤ length (distinct_keys (ReplaceByDict.source self)))%nat
          ∧ ReplaceByDict.text value self = (self', Raise AssertionError))).
Proof.
  intros Hc.
  destruct (decide (length (distinct_keys (ReplaceByDict.source self)) < 100)%nat)
    as [Hlen|Hlen].
  - destruct (text_rewritten self value Hc Hlen) as (self' & out & ? & ? & ?).
    exists self'. split; [done|]. left. split; [done|]. by exists out.
  - destruct (text_too_many self value Hc) as (self' & ? & ?); [lia|].
    exists self'. split; [done|]. right. split; [lia|done].
Qed.

(** X2: when [url] finds the macro of a value, [text] applied to that
    value as a whole text returns the same macro, if the source has fewer
    than 100 keys up to letter case; with more keys [text] raises
    [AssertionError] although [url] answers. *)
Theorem text_agrees_with_url self value macro :
  consistent self →
  (ReplaceByDict.url_func value self).2 = Return macro →
  (ReplaceByDict.text value self).2
  = if bool_decide
         (length (distinct_keys (ReplaceByDict.source self)) < 100)%nat
    then Return macro else Raise AssertionError.
Proof.
  intros Hc Hurl.
  destruct (url_func_spec self value Hc) as (self1 & Hu & _).
  rewrite Hu in Hurl. simpl in Hurl.
  destruct (the_dict _ !! lower value) as [macro'|] eqn:Hkey; [|done].
  injection Hurl as ->.
  destruct (text_cases self value Hc)
    as (self2 & _ & [(Hlen & out & -> & Hrw)|(Hlen & ->)]); simpl.
  - rewrite bool_decide_eq_true_2 by done. f_equal. by eapply Rewritten_key.
  - by rewrite bool_decide_eq_false_2 by lia.
Qed.

Lemma text_agrees_with_url_witness :
  (ReplaceByDict.text "/PAGE/1"
     (ReplaceByDict.__init__ Examples.pages false)).2
  = Return "{@ models.Page 1 @}"
  ∧ (ReplaceByDict.text "/PAGE/1"
       (ReplaceByDict.__init__ (Examples.many 100) false)).2
    = Raise AssertionError.
Proof.
  split.
  - apply (text_agrees_with_url (ReplaceByDict.__init__ Examples.pages false));
      [apply init_consistent|reflexivity].
  - apply (text_agrees_with_url
             (ReplaceByDict.__init__ (Examples.many 100) false) "/PAGE/1"
             "{@ models.Page 1 @}"); [apply init_consistent|].
    vm_compute. reflexivity.
Defined.

Lemma text_later self value :
  consistent self → later self (ReplaceByDict.text value self).1.
Proof.
  intros Hc.
  by destruct (text_cases self value Hc)
    as (self' & ? & [(_ & ? & -> & _)|(_ & ->)]).
Qed.

(** X3: [text] returns when the source has fewer than 100 keys up to
    letter case and raises [AssertionError], and nothing else, when it
    has more (the index used by [replace] is always within the list);
    [url] returns the macro of a key of the source that equals the value
    up to letter case, or returns the value when silent, or raises
    [DoesNotFoundException] when not silent, and nothing else.  Both
    leave the source and the silent flag as they are and the caches
    consistent with the source. *)
Theorem replacer_by_dict_invariant self value :
  consistent self →
  (∃ self' r,
     ReplaceByDict.text value self = (self', r)
     ∧ later self self'
     ∧ ((∃ out, r = Return out)
        ∧ (length (distinct_keys (ReplaceByDict.source self)) < 100)%nat
        ∨ r = Raise AssertionError
          ∧ (100 ≤ length (distinct_keys (ReplaceByDict.source self)))%nat))
  ∧ (∃ self' r,
       ReplaceByDict.url value self = (self', r)
       ∧ later self self'
       ∧ (r = Raise DoesNotFoundException ∧ ReplaceByDict.silent self = false
          ∨ r = Return value ∧ ReplaceByDict.silent self = true
          ∨ ∃ key macro, r = Return macro
                         ∧ (key, macro) ∈ ReplaceByDict.source self
                         ∧ lower key = lower value)).
Proof.
  intros Hc. split.
  - destruct (text_cases self value Hc)
      as (self' & Hl & [(Hlen & out & Ht & _)|(Hlen & Ht)]).
    + exists self', (Return out). split; [done|]. split; [done|].
      left. split; [by exists out|done].
    + exists self', (Raise AssertionError). split; [done|]. split; [done|].
      by right.
  - destruct (url_spec self value Hc) as (self' & Hu & Hl).
    eexists self', _. split; [exact Hu|]. split; [done|].
    destruct (the_dict _ !! lower value) as [macro|] eqn:Hkey.
    + right. right. apply the_dict_key in Hkey as [_ (key0 & Hin & Hlow)].
      by exists key0, macro.
    + destruct (ReplaceByDict.silent self); auto.
Qed.

Lemma replacer_by_dict_invariant_witness :
  (∃ self' r,
     ReplaceByDict.text "/page/3"
       (ReplaceByDict.__init__ Examples.pages true) = (self', r)
     ∧ later (ReplaceByDict.__init__ Examples.pages true) self'
     ∧ ((∃ out, r = Return out)
        ∧ (length (distinct_keys
                     (ReplaceByDict.source
                        (ReplaceByDict.__init__ Examples.pages true)))
           < 100)%nat
        ∨ r = Raise AssertionError
          ∧ (100 ≤ length (distinct_keys
                             (ReplaceByDict.source
                                (ReplaceByDict.__init__ Examples.pages true))))%nat))
  ∧ (∃ self' r,
       ReplaceByDict.url "/page/3"
         (ReplaceByDict.__init__ Examples.pages true) = (self', r)
       ∧ later (ReplaceByDict.__init__ Examples.pages true) self'
       ∧ (r = Raise DoesNotFoundException
            ∧ ReplaceByDict.silent
                (ReplaceByDict.__init__ Examples.pages true) = false
          ∨ r = Return "/page/3"
            ∧ ReplaceByDict.silent
                (ReplaceByDict.__init__ Examples.pages true) = true
          ∨ ∃ key macro, r = Return macro
                         ∧ (key, macro)
                           ∈ ReplaceByDict.source
                               (ReplaceByDict.__init__ Examples.pages true)
                         ∧ lower key = lower "/page/3")).
Proof.
  exact (replacer_by_dict_invariant
           (ReplaceByDict.__init__ Examples.pages true) _
           (init_consistent _ _)).
Defined.

(** X4: what [text] and [url] return depends on the source only, not on
    which caches earlier calls have built. *)
Theorem caches_are_transparent self1 self2 value :
  consistent self1 → consistent self2 →
  ReplaceByDict.source self1 = ReplaceByDict.source self2 →
  (ReplaceByDict.text value self1).2 = (ReplaceByDict.text value self2).2
  ∧ (ReplaceByDict.url_func value self1).2
    = (ReplaceByDict.url_func value self2).2.
Proof.
  intros Hc1 Hc2 Hsrc. split.
  - destruct (text_cases self1 value Hc1)
      as (? & _ & [(Hlen1 & out1 & -> & Hrw1)|(Hlen1 & ->)]);
      destruct (text_cases self2 value Hc2)
        as (? & _ & [(Hlen2 & out2 & -> & Hrw2)|(Hlen2 & ->)]);
      rewrite Hsrc in *; simpl; try lia; [|done].
    f_equal. by eapply Rewritten_functional.
  - destruct (url_func_spec self1 value Hc1) as (? & -> & _).
    destruct (url_func_spec self2 value Hc2) as (? & -> & _).
    simpl. by rewrite Hsrc.
Qed.

Lemma caches_are_transparent_witness :
  (ReplaceByDict.text "see /page/1"
     (ReplaceByDict.text "/item/2"
        (ReplaceByDict.__init__ Examples.pages false)).1).2
  = (ReplaceByDict.text "see /page/1"
       (ReplaceByDict.__init__ Examples.pages false)).2.
Proof.
  apply caches_are_transparent.
  - apply (text_later _ "/item/2" (init_consistent _ _)).
  - apply init_consistent.
  - reflexivity.
Defined.

(** X5: a text in which no key of the source occurs at any position,
    letter case ignored, is returned by [text] unchanged, if the source
    has fewer than 100 keys up to letter case (with an empty source that
    is every text); with more keys [text] raises [AssertionError] for
    such a text too. *)
Theorem text_without_keys self value :
  consistent self →
  Forall (λ item,
            Forall (λ s', occurs_here item.1 s' = false) (suffixes value))
    (ReplaceByDict.source self) →
  (ReplaceByDict.text value self).2
  = if bool_decide
         (length (distinct_keys (ReplaceByDict.source self)) < 100)%nat
    then Return value else Raise AssertionError.
Proof.
  intros Hc Hinert.
  destruct (text_cases self value Hc)
    as (self' & _ & [(Hlen & out & -> & Hrw)|(Hlen & ->)]); simpl.
  - rewrite bool_decide_eq_true_2 by done.
    f_equal. apply Rewritten_inert in Hrw; [done|].
    intros s' Hs'. apply first_alt_None.
    eapply Forall_impl; [exact Hinert|].
    intros item Hitem. rewrite Forall_forall in Hitem. by apply Hitem.
  - by rewrite bool_decide_eq_false_2 by lia.
Qed.

Lemma text_without_keys_witness :
  (ReplaceByDict.text "see /page/3 and nothing else"
     (ReplaceByDict.__init__ Examples.pages false)).2
  = Return "see /page/3 and nothing else"
  ∧ (ReplaceByDict.text "anything" (ReplaceByDict.__init__ [] false)).2
    = Return "anything".
Proof.
  split.
  - apply (text_without_keys (ReplaceByDict.__init__ Examples.pages false));
      [apply init_consistent|].
    apply (bool_decide_unpack _). vm_compute. exact I.
  - apply (text_without_keys (ReplaceByDict.__init__ [] false));
      [apply init_consistent|]. constructor.
Defined.

(** X6: values that differ in letter case only get the same answer from
    the dictionary lookup of [url]. *)
Theorem url_ignores_case self value1 value2 :
  consistent self →
  lower value1 = lower value2 →
  (ReplaceByDict.url_func value1 self).2
  = (ReplaceByDict.url_func value2 self).2.
Proof.
  intros Hc Hlow.
  destruct (url_func_spec self value1 Hc) as (? & -> & _).
  destruct (url_func_spec self value2 Hc) as (? & -> & _).
  simpl. by rewrite Hlow.
Qed.

Lemma url_ignores_case_witness :
  (ReplaceByDict.url_func "/Page/1"
     (ReplaceByDict.__init__ Examples.pages false)).2
  = (ReplaceByDict.url_func "/PAGE/1"
       (ReplaceByDict.__init__ Examples.pages false)).2.
Proof.
  apply url_ignores_case; [apply init_consistent|reflexivity].
Defined.


(** ** The hook outside of object_from_view *)

(** X7: in a thread with no request pending (neither attribute of
    [local] set), the decorated [Template.render] behaves as the original:
    a view returns what it returns without the hook, and [local] stays as
    it is. *)
Theorem hook_is_transparent {R : Type} (p : prog R) w :
  modelurl_object_name (local w) = None →
  modelurl_object (local w) = None →
  (run p w).2 = run_original p
  ∧ local (run p w).1 = local w
  ∧ requested (run p w).1 = requested w.
Proof.
  revert w.
  induction p as [R r|R e|R body IHbody context k IHk]; intros w Hname Hobj;
    [done|done|].
  rewrite (run_render_pass _ _ _ _ Hobj). rewrite Hname. simpl.
  match goal with |- context [run body ?w0] => set (w2 := w0) end.
  destruct (IHbody w2 eq_refl eq_refl) as (Hout & Hlocal & Hreq).
  destruct (run body w2) as [w3 [out|e]] eqn:Hbody; simpl in *;
    rewrite <- Hout.
  - assert (local w3 = local w) as Hw3.
    { rewrite Hlocal. destruct w as [[name obj] ? ?]. simpl in *. congruence. }
    destruct (IHk out w3) as (Hout' & Hlocal' & Hreq').
    + by rewrite Hw3.
    + by rewrite Hw3.
    + rewrite Hout', Hlocal', Hreq', Hreq. by split.
  - rewrite Hlocal, Hreq. repeat split.
    destruct w as [[name obj] ? ?]. simpl in *. congruence.
Qed.

Lemma hook_is_transparent_witness :
  (run (Examples.local_response (Some "/objects/1") None) Examples.idle).2
  = run_original (Examples.local_response (Some "/objects/1") None)
  ∧ local (run (Examples.local_response (Some "/objects/1") None)
             Examples.idle).1 = local Examples.idle
  ∧ requested (run (Examples.local_response (Some "/objects/1") None)
                 Examples.idle).1 = requested Examples.idle.
Proof. apply hook_is_transparent; reflexivity. Defined.

(** ** The installation of the hook *)

(** X8: however often the installing block is run, [Template.render] is
    wrapped once: running it again changes nothing, the marker is set, and
    a class that had the marker keeps its [render]. *)
Theorem install_once n Template :
  Nat.iter (S n) install Template = install Template
  ∧ render_by_model_url (install Template) = true
  ∧ Template_render (install Template)
    = if render_by_model_url Template then Template_render Template
      else render (Template_render Template).
Proof.
  split; [|split].
  - induction n as [|n IH]; [done|].
    change (install (Nat.iter (S n) install Template) = install Template).
    rewrite IH. by destruct Template as [f []].
  - by destruct Template as [f []].
  - by destruct Template as [f []].
Qed.

(** ** macro *)

Lemma string_app_length a b :
  String.length (a +:+ b) = (String.length a + String.length b)%nat.
Proof.
  induction a as [|c a IH]; [done|].
  change (S (String.length (a +:+ b)) = S (String.length a + String.length b)).
  by rewrite IH.
Qed.

Lemma string_app_inj_r a b t : a +:+ t = b +:+ t → a = b.
Proof.
  revert b. induction a as [|c a IH]; intros [|d b] Heq.
  - done.
  - apply (f_equal String.length) in Heq.
    rewrite !string_app_length in Heq. simpl in Heq. lia.
  - apply (f_equal String.length) in Heq.
    rewrite !string_app_length in Heq. simpl in Heq. lia.
  - change (String c (a +:+ t) = String d (b +:+ t)) in Heq.
    injection Heq as -> Heq. f_equal. by apply IH.
Qed.

(** X9: two objects of one class have the same macro only if they have
    the same [pk]. *)
Theorem macro_injective obj1 obj2 :
  __class__ obj1 = __class__ obj2 →
  macro obj1 = macro obj2 →
  pk obj1 = pk obj2.
Proof.
  unfold macro. intros -> Heq.
  do 5 apply String.app_inj in Heq.
  apply string_app_inj_r in Heq. by apply pretty_Z_inj in Heq.
Qed.

Lemma macro_injective_witness :
  pk Examples.Thing
  = pk {| __class__ := __class__ Examples.Thing; pk := 1; id := 7 |}.
Proof. apply macro_injective; reflexivity. Defined.

(** ** ReplaceByView: the registry, the requests, the results *)

Lemma silentmethod_state {St} (silent : St → bool) func value st :
  (silentmethod silent func value st).1 = (func value st).1.
Proof.
  unfold silentmethod, try_except.
  destruct (func value st) as [st' [a|e]]; [done|].
  destruct (is_ReplaceException e); [|done].
  unfold bind, get. by destruct (silent st').
Qed.

(** A dictionary filled item by item holds, under a key, the value of
    the last item that was stored under it. *)
Lemma filled_lookup `{Countable K} {A} (f : string → K)
    (items : list (string * A)) k :
  foldl (λ d item, <[f item.1 := item.2]> d) (∅ : gmap K A) items !! k
  = snd <$> last (filter (λ item, f item.1 = k) items).
Proof.
  induction items as [|item items IH] using rev_ind; [done|].
  rewrite foldl_app, filter_app. simpl.
  rewrite filter_cons, filter_nil.
  destruct (decide (f item.1 = k)) as [<-|Hne].
  - by rewrite lookup_insert_eq, last_snoc.
  - rewrite lookup_insert_ne by done. by rewrite app_nil_r.
Qed.

Section view_more.

Context {Callback : Type} `{Countable Callback}.
Variable importpath : string → Callback.
Variable MODELURL_VIEWS : list (string * string).
Variable site_domains : list string.
Variable MACRO_RE_match : string → bool.
Variable urlsplit : string →
  option string * option string * option string * option string
  * option string.
Variable urljoin : option string → option string → option string →
  option string → option string → string.
Variable resolve : string → result Callback.
Variable local_response : option string → option string → prog Response.

Local Abbreviation url_func :=
  (ReplaceByView.url_func MACRO_RE_match urlsplit urljoin resolve
     local_response).
Local Abbreviation url :=
  (ReplaceByView.url MACRO_RE_match urlsplit urljoin resolve local_response).
Local Abbreviation validated := (passes_validation MACRO_RE_match urlsplit).
Local Abbreviation __init__ :=
  (ReplaceByView.__init__ importpath MODELURL_VIEWS site_domains).

(** X10: after [__init__], [views] maps the object a listed path
    imports to the name listed with it (provided all listed paths that
    import the same object carry that name) and maps no other object;
    [views] and [sites] left out are taken from the settings and the
    [Site] table. *)
Theorem registry_after_init views sites send_query silent :
  let self := __init__ views sites send_query silent in
  (∀ view name,
     (view, name) ∈ default MODELURL_VIEWS views →
     (∀ view' name', (view', name') ∈ default MODELURL_VIEWS views →
                     importpath view' = importpath view → name' = name) →
     ReplaceByView.views self !! importpath view = Some name)
  ∧ (∀ callback,
       (∀ view name, (view, name) ∈ default MODELURL_VIEWS views →
                     importpath view ≠ callback) →
       ReplaceByView.views self !! callback = None)
  ∧ ReplaceByView.sites self = default site_domains sites
  ∧ ReplaceByView.send_query self = send_query
  ∧ ReplaceByView.silent self = silent.
Proof.
  intros self.
  assert (∀ callback,
            ReplaceByView.views self !! callback
            = snd <$> last (filter (λ item, importpath item.1 = callback)
                              (default MODELURL_VIEWS views))) as Hlookup.
  { intros callback. subst self. unfold ReplaceByView.__init__. simpl.
    rewrite <- filled_lookup. by destruct views. }
  split; [|split; [|split; [|split]]].
  - intros view name Hin Huniq. rewrite Hlookup.
    destruct (last _) as [[view' name']|] eqn:Hlast; simpl.
    + apply last_Some_elem_of, list_elem_of_filter in Hlast as [Hv Hin'].
      f_equal. by apply (Huniq view').
    + apply last_None in Hlast.
      assert ((view, name)
              ∈ filter (λ item, importpath item.1 = importpath view)
                  (default MODELURL_VIEWS views)) as Hf
        by by apply list_elem_of_filter.
      rewrite Hlast in Hf. by apply elem_of_nil in Hf.
  - intros callback Hnone. rewrite Hlookup.
    destruct (last _) as [[view name]|] eqn:Hlast; [|done].
    apply last_Some_elem_of, list_elem_of_filter in Hlast as [Hv Hin].
    by destruct (Hnone view name).
  - subst self. unfold ReplaceByView.__init__. simpl. by destruct sites.
  - done.
  - done.
Qed.

Lemma url_func_not_validated self value w :
  validated self value = false → (url_func self value w).1 = w.
Proof.
  unfold passes_validation, ReplaceByView.url_func.
  destruct (urlsplit value) as [[[[scheme authority] path] query] fragment].
  destruct (MACRO_RE_match value); [done|].
  destruct (truthy scheme), (truthy authority), (truthy path); simpl;
    try done;
    destruct (ReplaceByView.foreign_part scheme _),
      (ReplaceByView.foreign_part authority _); simpl; done.
Qed.

(** X11: [url] leaves [local] of the calling thread as it is; it calls
    [local_response] once when the value passes validation, resolves, and
    the callback is in [views], with the path component and with the query
    only when [send_query] is set (else with ['']), and not at all
    otherwise. *)
Theorem url_requests self value w :
  local (url self value w).1 = local w
  ∧ requested (url self value w).1
    = match validated self value, resolve value with
      | true, Return callback =>
          match ReplaceByView.views self !! callback with
          | Some _ =>
              let '(_, _, path, query, _) := urlsplit value in
              (requested w
                 ++ [(path, if ReplaceByView.send_query self then query
                            else Some "")])%list
          | None => requested w
          end
      | _, _ => requested w
      end.
Proof.
  unfold ReplaceByView.url. rewrite silentmethod_state.
  destruct (validated self value) eqn:Hv.
  - rewrite (url_func_validated _ _ _ _ _ _ _ _ Hv).
    destruct (resolve value) as [callback|e]; [|done].
    destruct (ReplaceByView.views self !! callback) as [name|]; [|done].
    destruct (urlsplit value) as [[[[scheme authority] path] query] fragment].
    unfold bind. rewrite object_from_view_unfold.
    pose proof (run_trace (local_response path
                  (if ReplaceByView.send_query self then query else Some ""))
                  (thread_start w path
                     (if ReplaceByView.send_query self then query
                      else Some "") name))
      as (passes & _ & _ & _ & Hq).
    destruct (run _ _) as [w1 [response|e]]; simpl in *.
    + destruct (bool_decide _); [destruct (modelurl_object _)|];
        simpl; by rewrite Hq.
    + by rewrite Hq.
  - rewrite (url_func_not_validated _ _ _ Hv). by destruct (resolve value).
Qed.

(** X12: whatever [ReplaceByView.url] returns is the value it was given,
    and it returns only when silent. *)
Theorem url_returns_only_its_input self value w r :
  (url self value w).2 = Return r →
  r = value ∧ ReplaceByView.silent self = true.
Proof.
  unfold ReplaceByView.url, silentmethod, try_except.
  destruct (url_func_raises MACRO_RE_match urlsplit urljoin resolve
              local_response self value w) as [e He].
  destruct (url_func self value w) as [w' res]. simpl in He. subst res.
  destruct (is_ReplaceException e); [|done].
  unfold bind, get. destruct (ReplaceByView.silent self); [|done].
  by intros [= ->].
Qed.

(** X13: the authority is lower-cased before it is looked up in [sites],
    the entries of [sites] are not: when every entry contains a capital
    letter, each value with an authority is foreign; an authority whose
    lower-casing is an entry passes the check. *)
Theorem sites_are_compared_as_given self value w scheme a path query fragment :
  MACRO_RE_match value = false →
  urlsplit value = (scheme, Some a, path, query, fragment) →
  a ≠ "" →
  ((∀ site, site ∈ ReplaceByView.sites self → lower site ≠ site) →
   url self value w
   = (w, if ReplaceByView.silent self then Return value
         else Raise ForeignException))
  ∧ (lower a ∈ ReplaceByView.sites self →
     ReplaceByView.foreign_part scheme ReplaceByView.SERVER_SCHEMES = false →
     validated self value = true).
Proof.
  intros Hm Hsplit Ha.
  assert (truthy (Some a) = true) as Htruthy.
  { simpl. apply negb_true_iff. by apply String.eqb_neq. }
  split.
  - intros Hcapital. apply url_raises_ReplaceException; [|done].
    unfold ReplaceByView.url_func. rewrite Hm, Hsplit, Htruthy.
    rewrite andb_false_r. cbv iota.
    replace (ReplaceByView.foreign_part (Some a) (ReplaceByView.sites self))
      with true; [by rewrite orb_true_r|].
    symmetry. unfold ReplaceByView.foreign_part.
    apply andb_true_intro. split.
    + apply negb_true_iff. by apply String.eqb_neq.
    + apply negb_true_iff, bool_decide_eq_false_2. intros Hin.
      apply (Hcapital _ Hin). apply lower_idemp.
  - intros Hin Hscheme. unfold passes_validation.
    rewrite Hsplit, Hm, Hscheme. unfold ReplaceByView.foreign_part.
    rewrite (bool_decide_eq_true_2 _ Hin), Htruthy.
    by destruct (truthy scheme), (negb (String.eqb a "")).
Qed.

End view_more.

Lemma url_returns_only_its_input_witness :
  "/about" = "/about" ∧ ReplaceByView.silent (Examples.replacer true) = true.
Proof.
  apply (url_returns_only_its_input Examples.MACRO_RE_match Examples.urlsplit
           Examples.urljoin Examples.resolve Examples.local_response
           (Examples.replacer true) "/about" Examples.idle).
  reflexivity.
Defined.

Lemma sites_are_compared_as_given_witness :
  ReplaceByView.url Examples.MACRO_RE_match Examples.urlsplit
    Examples.urljoin Examples.resolve Examples.local_response
    {| ReplaceByView.silent := false;
       ReplaceByView.views := {["views.thing" := "obj"]};
       ReplaceByView.sites := ["Good.Example"];
       ReplaceByView.send_query := false |}
    "http://good.example/objects/1" Examples.idle
  = (Examples.idle, Raise ForeignException)
  ∧ passes_validation Examples.MACRO_RE_match Examples.urlsplit
      (Examples.replacer false) "http://good.example/objects/1" = true.
Proof.
  split.
  - apply (proj1 (sites_are_compared_as_given Examples.MACRO_RE_match
                    Examples.urlsplit Examples.urljoin Examples.resolve
                    Examples.local_response
                    {| ReplaceByView.silent := false;
                       ReplaceByView.views := {["views.thing" := "obj"]};
                       ReplaceByView.sites := ["Good.Example"];
                       ReplaceByView.send_query := false |}
                    "http://good.example/objects/1" Examples.idle
                    _ "good.example" _ _ _ eq_refl eq_refl
                    ltac:(discriminate))).
    intros site Hsite. apply list_elem_of_singleton in Hsite as ->.
    discriminate.
  - apply (proj2 (sites_are_compared_as_given Examples.MACRO_RE_match
                    Examples.urlsplit Examples.urljoin Examples.resolve
                    Examples.local_response (Examples.replacer false)
                    "http://good.example/objects/1" Examples.idle
                    _ "good.example" _ _ _ eq_refl eq_refl
                    ltac:(discriminate))).
    + by left.
    + reflexivity.
Defined.

Lemma registry_after_init_witness :
  ReplaceByView.views
    (ReplaceByView.__init__ (λ view : string, view) [("views.thing", "obj")]
       ["good.example"] None None false false)
    !! "views.thing" = Some "obj".
Proof.
  apply (proj1 (registry_after_init (λ view : string, view)
                  [("views.thing", "obj")] ["good.example"]
                  None None false false) "views.thing" "obj").
  - by left.
  - intros view' name' Hin _. simpl in Hin.
    apply list_elem_of_singleton in Hin. by injection Hin as -> ->.
Defined.
